(** * HKO_HUB kernel: atoms, molecules and the core sweeps

    A shallow embedding of [src/CHOPSHOP/legacy_repos/HKO_HUB/HKO_HUB.js]
    (layers 0, 1 and 3, and the logger of layer 2) together with the
    properties its specification states about the event bus, the store,
    the module state machine, the pipeline and the core registry, and
    further properties of the same functions read off the code.

    Conventions.
    - A JavaScript function value is identified by a natural number
      ([fn]); what a call of it does is looked up in a table that the
      definitions take as a parameter, so that [indexOf] can compare
      function identities while handlers still act on the very array
      they are stored in.
    - A thrown value is an [Error] object; an [async] function that
      throws is a rejected promise, and [await] re-raises it, so both
      are the [Thrown] outcome of a computation.
    - A computation is a function from the mutable world it closes over
      to its outcome, the new world, and the list of observations it
      produced (calls of user functions, emissions, log lines).
    - A callback acts on the bus it is subscribed to, or on resources
      outside the kernel; it does not call back into the store, module
      or pipeline that is running it.
    - The values held by a cell or a store are immutable: a caller that
      changes in place an object it got from [read()] or [get()], as
      [Module_State.update] does, is outside the embedding. *)

From Stdlib Require Import List String Ascii ZArith NArith Arith Bool Lia.
From Stdlib Require Import Permutation Sorted.
Import ListNotations.
Open Scope string_scope.
Open Scope list_scope.

Set Implicit Arguments.

(* ------------------------------------------------------------------ *)
(** ** Outcomes and effectful computations *)

Record JsError : Type := Error { message : string }.

Inductive outcome (A : Type) : Type :=
| Returned (a : A)
| Thrown (e : JsError).
Arguments Returned {A} a.
Arguments Thrown {A} e.

Record result (W O A : Type) : Type := Result {
  value : outcome A;
  world : W;
  trace : list O
}.
Arguments Result {W O A} value world trace.

Definition Eff (W O A : Type) : Type := W -> result W O A.

Module EffOps.

Definition ret {W O A} (a : A) : Eff W O A :=
  fun w => Result (Returned a) w [].

Definition throw {W O A} (e : JsError) : Eff W O A :=
  fun w => Result (Thrown e) w [].

Definition bind {W O A B} (m : Eff W O A) (k : A -> Eff W O B) : Eff W O B :=
  fun w =>
    let r := m w in
    match value r with
    | Returned a =>
        let r' := k a (world r) in
        Result (value r') (world r') (trace r ++ trace r')
    | Thrown e => Result (Thrown e) (world r) (trace r)
    end.

(** [try { m } catch (e) { h e }] *)
Definition try_catch {W O A} (m : Eff W O A) (h : JsError -> Eff W O A)
  : Eff W O A :=
  fun w =>
    let r := m w in
    match value r with
    | Returned _ => r
    | Thrown e =>
        let r' := h e (world r) in
        Result (value r') (world r') (trace r ++ trace r')
    end.

Definition tell {W O} (o : O) : Eff W O unit :=
  fun w => Result (Returned tt) w [o].

Definition gets {W O A} (f : W -> A) : Eff W O A :=
  fun w => Result (Returned (f w)) w [].

Definition modify {W O} (f : W -> W) : Eff W O unit :=
  fun w => Result (Returned tt) (f w) [].

(** Run a computation on a component of the world, relabelling what
    it reports. *)
Definition zoom {W V O P A} (proj : W -> V) (upd : V -> W -> W)
    (lbl : P -> O) (m : Eff V P A) : Eff W O A :=
  fun w =>
    let r := m (proj w) in
    Result (value r) (upd (world r) w) (map lbl (trace r)).

(** Await a value that is already settled. *)
Definition settle {W O A} (o : outcome A) : Eff W O A :=
  fun w => Result o w [].

End EffOps.
Import EffOps.

Declare Scope eff_scope.
Delimit Scope eff_scope with eff.
Notation "x <- m ;; k" := (bind m (fun x => k))
  (at level 100, m at next level, right associativity) : eff_scope.
Notation "m ;; k" := (bind m (fun _ => k))
  (at level 100, right associativity) : eff_scope.
Open Scope eff_scope.

(* ------------------------------------------------------------------ *)
(** ** JavaScript arrays as lists *)

Module JsArray.
Section Ops.
Context {T : Type}.

Definition remove_at (k : nat) (l : list T) : list T :=
  firstn k l ++ skipn (S k) l.

(** [l.splice(start, 1)]: a negative [start] counts from the end
    (and is clamped at 0), a [start] past the end removes nothing. *)
Definition splice1 (start : Z) (l : list T) : list T :=
  let len := Z.of_nat (List.length l) in
  let k := if (start <? 0)%Z then Z.max (len + start) 0 else Z.min start len in
  remove_at (Z.to_nat k) l.

(** [l.pop()] *)
Definition pop (l : list T) : list T := removelast l.

(** [l.push(x)] *)
Definition push (x : T) (l : list T) : list T := l ++ [x].

Variable eqb : T -> T -> bool.

(** [l.indexOf(x)], -1 when [x] is not an element. *)
Fixpoint indexOf_from (i : Z) (x : T) (l : list T) : Z :=
  match l with
  | [] => (-1)%Z
  | y :: l' => if eqb y x then i else indexOf_from (i + 1)%Z x l'
  end.

Definition indexOf (x : T) (l : list T) : Z := indexOf_from 0%Z x l.
End Ops.
End JsArray.

(* ------------------------------------------------------------------ *)
(** ** Layer 0: atoms *)

(** *** [Atom_State] *)

Record Cell (T : Type) : Type := MkCell { initial : T; v : T }.

Module State.
Section Ops.
Context {T O : Type}.
Definition Atom_State (init : T) : Cell T := MkCell init init.
Definition read : Eff (Cell T) O T := gets (@v T).
Definition write (x : T) : Eff (Cell T) O T :=
  modify (fun c => MkCell (initial c) x) ;; ret x.
Definition reset : Eff (Cell T) O T :=
  modify (fun c => MkCell (initial c) (initial c)) ;; gets (@v T).
End Ops.
End State.

(** *** [Atom_Event] *)

(** Identity of a JavaScript function value. *)
Definition fn : Type := nat.

(** What [ls] holds: [on(f)] pushes [f] itself, [once(f)] pushes a
    fresh closure [(d) => (f(d), off())] around [f]. *)
Inductive listener : Type :=
| Plain (f : fn)
| OnceWrapper (f : fn).

(** [a === b], asked by [indexOf] with a user function for [b]: a
    wrapper made by [once] is a closure of its own and equals none. *)
Definition listener_eqb (a b : listener) : bool :=
  match a, b with
  | Plain f, Plain g => Nat.eqb f g
  | _, _ => false
  end.

Definition target (l : listener) : fn :=
  match l with Plain f | OnceWrapper f => f end.

Definition Bus : Type := list listener.

Inductive obs (D : Type) : Type :=
| Emitted (d : D)            (* [emit(d)] was entered *)
| Invoked (f : fn) (d : D).  (* the user function [f] was applied to [d] *)
Arguments Emitted {D} d.
Arguments Invoked {D} f d.

Definition invocations {D} (t : list (obs D)) : list (fn * D) :=
  flat_map (fun o => match o with Invoked f d => [(f, d)] | Emitted _ => [] end) t.

Definition emissions {D} (t : list (obs D)) : list D :=
  flat_map (fun o => match o with Emitted d => [d] | Invoked _ _ => [] end) t.

(** The body of a user function subscribed to a bus: applied to a
    payload it may throw, and it may use the bus it sits on. *)
Definition handler (D : Type) : Type := D -> Bus -> outcome unit * Bus.

Module Event.
Section Ops.
Context {D : Type}.
Variable code : fn -> handler D.

Definition Atom_Event : Bus := [].

(** The closure [() => ls.splice(ls.indexOf(f), 1)] returned by [on(f)]. *)
Definition unsubscribe (f : fn) (ls : Bus) : Bus :=
  JsArray.splice1 (JsArray.indexOf listener_eqb (Plain f) ls) ls.

(** The closure [() => ls.pop()] that [once] binds to [off]. *)
Definition off (ls : Bus) : Bus := JsArray.pop ls.

Definition on (f : fn) : Eff Bus (obs D) (Bus -> Bus) :=
  modify (JsArray.push (Plain f)) ;; ret (unsubscribe f).

Definition once (f : fn) : Eff Bus (obs D) (Bus -> Bus) :=
  modify (JsArray.push (OnceWrapper f)) ;; ret off.

Definition clear : Eff Bus (obs D) unit := modify (fun _ => []).

Definition apply_fn (f : fn) (d : D) : Eff Bus (obs D) unit :=
  fun ls => let (o, ls') := code f d ls in Result o ls' [Invoked f d].

Definition call (l : listener) (d : D) : Eff Bus (obs D) unit :=
  match l with
  | Plain f => apply_fn f d
  | OnceWrapper f => apply_fn f d ;; modify off
  end.

(** [ls.forEach(f => f(d))]: the length is read once, the elements
    are read from the live array, an index that is no longer present
    is skipped. [n] indices remain, the next one is [k]. *)
Fixpoint forEach_from (n k : nat) (d : D) : Eff Bus (obs D) unit :=
  match n with
  | O => ret tt
  | S n' => fun ls =>
      match nth_error ls k with
      | Some l => (call l d ;; forEach_from n' (S k) d) ls
      | None => forEach_from n' (S k) d ls
      end
  end.

Definition emit (d : D) : Eff Bus (obs D) unit :=
  tell (Emitted d) ;; (fun ls => forEach_from (List.length ls) 0 d ls).
End Ops.
End Event.

(** *** [Atom_Lifecycle] *)

Module Lifecycle.

Inductive phase : Type := Init | Start | Stop | Destroy.

Definition phase_name (ph : phase) : string :=
  match ph with
  | Init => "init" | Start => "start" | Stop => "stop" | Destroy => "destroy"
  end.

(** [h = { init: [], start: [], stop: [], destroy: [] }] *)
Record table : Type := MkTable {
  h_init : list fn; h_start : list fn; h_stop : list fn; h_destroy : list fn
}.

Definition Atom_Lifecycle : table := MkTable [] [] [] [].

Definition h (t : table) (ph : phase) : list fn :=
  match ph with
  | Init => h_init t | Start => h_start t
  | Stop => h_stop t | Destroy => h_destroy t
  end.

Inductive ran : Type := Ran (ph : phase) (f : fn).

Section Ops.
(** A hook takes no argument and works on resources outside the
    kernel; the kernel sees only whether it returns or throws. *)
Variable hook : fn -> outcome unit.

(** [h[phase].push(fn)] *)
Definition on (ph : phase) (f : fn) : Eff table ran unit :=
  modify (fun t =>
    match ph with
    | Init => MkTable (JsArray.push f (h_init t)) (h_start t) (h_stop t) (h_destroy t)
    | Start => MkTable (h_init t) (JsArray.push f (h_start t)) (h_stop t) (h_destroy t)
    | Stop => MkTable (h_init t) (h_start t) (JsArray.push f (h_stop t)) (h_destroy t)
    | Destroy => MkTable (h_init t) (h_start t) (h_stop t) (JsArray.push f (h_destroy t))
    end).

(** [fs.forEach(f => f())] over an array no hook removes from. *)
Fixpoint forEach (ph : phase) (fs : list fn) : Eff table ran unit :=
  match fs with
  | [] => ret tt
  | f :: rest => tell (Ran ph f) ;; settle (hook f) ;; forEach ph rest
  end.

(** [h[phase]?.forEach(f => f())] *)
Definition run (ph : phase) : Eff table ran unit :=
  fun t => forEach ph (h t ph) t.
End Ops.
End Lifecycle.

(** *** JavaScript values and plain objects *)

#[local] Set Warnings "-register-all".
Inductive jsval : Type :=
| VUndefined
| VNull
| VBool (b : bool)
| VNum (n : Z)
| VStr (s : string)
| VObj (props : list (string * jsval))
| VFun (f : fn).

(** Own properties of a plain object, in creation order. *)
Definition object (T : Type) : Type := list (string * T).

Module JsObject.

Definition digit_of (c : ascii) : option N :=
  let n := N_of_ascii c in
  if ((48 <=? n) && (n <=? 57))%N then Some (n - 48)%N else None.

Fixpoint digits_value (acc : N) (s : string) : option N :=
  match s with
  | EmptyString => Some acc
  | String c s' =>
      match digit_of c with
      | Some d => digits_value (acc * 10 + d)%N s'
      | None => None
      end
  end.

(** A key is an array index when it is the canonical decimal
    spelling of an integer below 2^32 - 1. *)
Definition array_index (k : string) : option N :=
  match k with
  | EmptyString => None
  | String c rest =>
      if Ascii.eqb c "0"
      then match rest with EmptyString => Some 0%N | _ => None end
      else match digits_value 0 k with
           | Some n => if (n <? 4294967295)%N then Some n else None
           | None => None
           end
  end.

Section Entries.
Context {T : Type}.

Fixpoint insert_index (n : N) (e : string * T) (l : list (N * (string * T)))
  : list (N * (string * T)) :=
  match l with
  | [] => [(n, e)]
  | (m, e') :: l' =>
      if (n <? m)%N then (n, e) :: l else (m, e') :: insert_index n e l'
  end.

Fixpoint indexed (o : object T) : list (N * (string * T)) :=
  match o with
  | [] => []
  | e :: o' =>
      match array_index (fst e) with
      | Some n => insert_index n e (indexed o')
      | None => indexed o'
      end
  end.

Definition named (o : object T) : object T :=
  filter (fun e => match array_index (fst e) with Some _ => false | None => true end) o.

(** [Object.entries(o)]: array-index keys in ascending numeric
    order, then the other keys in creation order. *)
Definition entries (o : object T) : list (string * T) :=
  map snd (indexed o) ++ named o.

(** [Object.keys(o)] *)
Definition keys (o : object T) : list string := map fst (entries o).
End Entries.

(** [o[k]] on a plain object: the own property, or [undefined]. *)
Fixpoint get (o : object jsval) (k : string) : jsval :=
  match o with
  | [] => VUndefined
  | (k', x) :: o' => if String.eqb k' k then x else get o' k
  end.

End JsObject.

(** *** [Atom_Guard] *)

Module Guard.

Definition rule : Type := jsval -> bool.

Inductive verdict : Type :=
| Ok (data : object jsval)       (* [{ ok: true, data }] *)
| Fail (field : string).         (* [{ ok: false, field }] *)

Fixpoint check (es : list (string * rule)) (data : object jsval) : verdict :=
  match es with
  | [] => Ok data
  | (k, r) :: rest =>
      if negb (r (JsObject.get data k)) then Fail k else check rest data
  end.

(** [validate: (rules) => (data) => { for (const [k, r] of Object.entries(rules)) ... }] *)
Definition validate (rules : object rule) (data : object jsval) : verdict :=
  check (JsObject.entries rules) data.

(** [required: (v) => v != null && v !== ''] *)
Definition required : rule := fun x =>
  match x with
  | VUndefined | VNull => false
  | VStr s => negb (String.eqb s "")
  | _ => true
  end.

Definition typeof (x : jsval) : string :=
  match x with
  | VUndefined => "undefined"
  | VNull | VObj _ => "object"
  | VBool _ => "boolean"
  | VNum _ => "number"
  | VStr _ => "string"
  | VFun _ => "function"
  end.

(** [type: (t) => (v) => typeof v === t] *)
Definition type (t : string) : rule := fun x => String.eqb (typeof x) t.

End Guard.

(* ------------------------------------------------------------------ *)
(** ** Layer 1: molecules *)

(** *** [Mol_Store] *)

Module Store.

(** The stored value: a plain object, as the default [init = {}] is. *)
Definition payload : Type := object jsval.

Record store : Type := MkStore {
  state : Cell payload;
  changed : Bus;
  validator : option (payload -> Guard.verdict)
}.

(** [Mol_Store(init, schema)] *)
Definition Mol_Store (init : payload) (schema : object Guard.rule) : store :=
  MkStore (State.Atom_State init) Event.Atom_Event
    (if Nat.eqb (List.length (JsObject.keys schema)) 0
     then None else Some (Guard.validate schema)).

Definition on_state {O A} (m : Eff (Cell payload) O A) : Eff store O A :=
  zoom state (fun c s => MkStore c (changed s) (validator s)) (fun o => o) m.

Definition on_changed {O A} (m : Eff Bus O A) : Eff store O A :=
  zoom changed (fun b s => MkStore (state s) b (validator s)) (fun o => o) m.

Section Ops.
Variable code : fn -> handler payload.

Definition get : Eff store (obs payload) payload := on_state State.read.

Definition set (x : payload) : Eff store (obs payload) payload :=
  fun s =>
    ((match validator s with
      | Some validate =>
          match validate x with
          | Guard.Fail field => throw (Error ("Invalid: " ++ field))
          | Guard.Ok _ => ret tt
          end
      | None => ret tt
      end) ;;
     on_state (State.write x) ;;
     on_changed (Event.emit code x) ;;
     ret x) s.

Definition on (f : fn) : Eff store (obs payload) (Bus -> Bus) :=
  on_changed (Event.on f).

Definition reset : Eff store (obs payload) payload := on_state State.reset.
End Ops.
End Store.

(** *** [Mol_Module] *)

Module Mod.

Record snapshot : Type := MkSnapshot { status : string; err : jsval }.

Record module : Type := MkModule {
  name : string;
  cfg : jsval;
  lc : Lifecycle.table;
  state : Cell snapshot;
  evt : Bus
}.

Inductive seen : Type :=
| Hook (r : Lifecycle.ran)
| Event (o : obs string).

(** [Mol_Module(name, cfg)] *)
Definition Mol_Module (name : string) (cfg : jsval) : module :=
  MkModule name cfg Lifecycle.Atom_Lifecycle
    (State.Atom_State (MkSnapshot "idle" VNull)) Event.Atom_Event.

Definition on_lc {A} (m : Eff Lifecycle.table Lifecycle.ran A) : Eff module seen A :=
  zoom lc (fun t m => MkModule (name m) (cfg m) t (state m) (evt m)) Hook m.

Definition on_state {A} (m : Eff (Cell snapshot) seen A) : Eff module seen A :=
  zoom state (fun c m => MkModule (name m) (cfg m) (lc m) c (evt m)) (fun o => o) m.

Definition on_evt {A} (m : Eff Bus (obs string) A) : Eff module seen A :=
  zoom evt (fun b m => MkModule (name m) (cfg m) (lc m) (state m) b) Event m.

Section Ops.
Variable hook : fn -> outcome unit.
Variable code : fn -> handler string.

Definition init : Eff module seen unit :=
  on_lc (Lifecycle.run hook Lifecycle.Init) ;;
  on_state (State.write (MkSnapshot "init" VNull)) ;;
  on_evt (Event.emit code "init").

Definition start : Eff module seen unit :=
  on_lc (Lifecycle.run hook Lifecycle.Start) ;;
  on_state (State.write (MkSnapshot "run" VNull)) ;;
  on_evt (Event.emit code "start").

Definition stop : Eff module seen unit :=
  on_lc (Lifecycle.run hook Lifecycle.Stop) ;;
  on_state (State.write (MkSnapshot "stop" VNull)) ;;
  on_evt (Event.emit code "stop").

Definition get_status : Eff module seen snapshot := on_state State.read.

Definition on (f : fn) : Eff module seen (Bus -> Bus) := on_evt (Event.on f).

Definition onInit (f : fn) : Eff module seen unit :=
  on_lc (Lifecycle.on Lifecycle.Init f).
Definition onStart (f : fn) : Eff module seen unit :=
  on_lc (Lifecycle.on Lifecycle.Start f).
Definition onStop (f : fn) : Eff module seen unit :=
  on_lc (Lifecycle.on Lifecycle.Stop f).
End Ops.
End Mod.

(** *** [Mol_Pipeline] *)

Module Pipeline.

(** The payloads [{ stage, status }] and [{ stage, status, err }]. *)
Record progress : Type := MkProgress {
  stage : nat;
  status : string;
  err : option string
}.

(** A stage, awaited: it settles with a value or with a cause. *)
Definition stage_fn : Type := jsval -> outcome jsval.

Inductive seen : Type :=
| StageCalled (i : nat) (input : jsval)
| Event (o : obs progress).

Record pipeline : Type := MkPipeline { stages : list stage_fn; evt : Bus }.

(** [Mol_Pipeline(...stages)] *)
Definition Mol_Pipeline (stages : list stage_fn) : pipeline :=
  MkPipeline stages Event.Atom_Event.

Section Ops.
Variable code : fn -> handler progress.

Definition emit (p : progress) : Eff Bus seen unit :=
  zoom (fun b => b) (fun b _ => b) Event (Event.emit code p).

(** The [for] loop of [run]: [rest] are the stages from index [i] on. *)
Fixpoint loop (rest : list stage_fn) (i : nat) (curr : jsval)
  : Eff Bus seen jsval :=
  match rest with
  | [] => ret curr
  | s :: rest' =>
      next <- try_catch
                (emit (MkProgress i "run" None) ;;
                 tell (StageCalled i curr) ;;
                 out <- settle (s curr) ;;
                 emit (MkProgress i "ok" None) ;;
                 ret out)
                (fun e =>
                   emit (MkProgress i "fail" (Some (message e))) ;;
                   throw e) ;;
      loop rest' (S i) next
  end.

Definition run (input : jsval) : Eff pipeline seen jsval :=
  fun p =>
    zoom evt (fun b p => MkPipeline (stages p) b) (fun o => o)
      (loop (stages p) 0 input) p.

Definition on (f : fn) : Eff pipeline seen (Bus -> Bus) :=
  zoom evt (fun b p => MkPipeline (stages p) b) Event (Event.on f).
End Ops.
End Pipeline.

(* ------------------------------------------------------------------ *)
(** ** Layer 3: the core registry

    [HKO_HUB_Core] builds its [modules] map from five concrete modules;
    the sweeps only use the map's entries, so the registry is kept
    general here.  [start] is not needed below and is left out. *)

Module Core.

(** A log entry [{ time, level, msg }], without its time stamp. *)
Record entry : Type := MkEntry { level : string; msg : string }.

Record core : Type := MkCore {
  modules : list (string * Mod.module);   (* the [Map], in insertion order *)
  logs : list entry                       (* the logger's [logs] array *)
}.

Inductive seen : Type :=
| Called (n : string) (ph : Lifecycle.phase)   (* [m.init()], [m.stop()] entered *)
| Within (n : string) (o : Mod.seen)           (* what that call did *)
| Logged (e : entry).

Definition calls (t : list seen) : list (string * Lifecycle.phase) :=
  flat_map (fun o => match o with Called n ph => [(n, ph)] | _ => [] end) t.

(** [logger.info(m)]: the entry is pushed, the oldest one is dropped
    beyond 1000 entries, and the line is printed; [onLog] has no
    subscriber during a sweep. *)
Definition logger_info (m : string) : Eff core seen unit :=
  let e := MkEntry "INFO" m in
  modify (fun c =>
    let l := JsArray.push e (logs c) in
    MkCore (modules c) (if Nat.ltb 1000 (List.length l) then tl l else l)) ;;
  tell (Logged e).

(** The entries [[n, m]] of the map: [m] is a reference to a
    registered module, here its position in the registry. *)
Definition entries (c : core) : list (string * nat) :=
  combine (map fst (modules c)) (seq 0 (List.length (modules c))).

Definition replace_at (i : nat) (md : Mod.module) (ms : list (string * Mod.module))
  : list (string * Mod.module) :=
  match nth_error ms i with
  | Some (n, _) => firstn i ms ++ (n, md) :: skipn (S i) ms
  | None => ms
  end.

(** [await m.<phase>()] on the module that [i] refers to. *)
Definition await_method (ph : Lifecycle.phase) (n : string) (i : nat)
    (method : Eff Mod.module Mod.seen unit) : Eff core seen unit :=
  fun c =>
    match nth_error (modules c) i with
    | Some (_, md) =>
        (tell (Called n ph) ;;
         zoom (fun _ => md)
              (fun md' c => MkCore (replace_at i md' (modules c)) (logs c))
              (Within n) method) c
    | None => ret tt c
    end.

(** [for (const [n, m] of es) body] *)
Fixpoint for_of (es : list (string * nat))
    (body : string -> nat -> Eff core seen unit) : Eff core seen unit :=
  match es with
  | [] => ret tt
  | (n, m) :: rest => body n m ;; for_of rest body
  end.

Section Ops.
Variable hook : fn -> outcome unit.
Variable code : fn -> handler string.

Definition init : Eff core seen unit :=
  fun c =>
    for_of (entries c)
      (fun n m =>
         await_method Lifecycle.Init n m (Mod.init hook code) ;;
         logger_info ("[HKO_HUB] Init: " ++ n)) c.

Definition stop : Eff core seen unit :=
  fun c =>
    for_of (rev (entries c))
      (fun n m =>
         await_method Lifecycle.Stop n m (Mod.stop hook code) ;;
         logger_info ("[HKO_HUB] Stop: " ++ n)) c.

End Ops.

(** The hooks that the concrete modules of layer 2 register; what
    they do to Electron is the hook table's business. *)
Definition config_onInit : fn := 101.
Definition window_onInit : fn := 102.
Definition window_onStart : fn := 103.
Definition window_onStop : fn := 104.
Definition ipc_onInit : fn := 105.
Definition ipc_onStart : fn := 106.
Definition ipc_onStop : fn := 107.

(** The registry of [HKO_HUB_Core()]: logger, config, state, window
    and ipc, in this order, each a [Mol_Module] with its hooks. *)
Definition HKO_HUB_Core : core :=
  MkCore
    [("logger", Mod.Mol_Module "logger" (VObj []));
     ("config", world (Mod.onInit config_onInit (Mod.Mol_Module "config" (VObj []))));
     ("state", Mod.Mol_Module "state" (VObj []));
     ("window",
      world ((Mod.onInit window_onInit ;; Mod.onStart window_onStart ;;
              Mod.onStop window_onStop) (Mod.Mol_Module "window" (VObj []))));
     ("ipc",
      world ((Mod.onInit ipc_onInit ;; Mod.onStart ipc_onStart ;;
              Mod.onStop ipc_onStop) (Mod.Mol_Module "ipc" (VObj []))))]
    [].
End Core.

(* ------------------------------------------------------------------ *)
(** ** The rest of layer 0 and the logger of layer 2 *)

(** *** [Atom_Transform] *)

Module Transform.

(** A unary function: applied to a value it returns one or throws. *)
Definition unary : Type := jsval -> outcome jsval.

(** [fns.reduce((v, f) => f(v), x)] *)
Fixpoint reduce (fns : list unary) (x : jsval) : outcome jsval :=
  match fns with
  | [] => Returned x
  | f :: rest =>
      match f x with
      | Returned y => reduce rest y
      | Thrown e => Thrown e
      end
  end.

(** [pipe: (...fns) => (x) => fns.reduce((v, f) => f(v), x)] *)
Definition pipe (fns : list unary) : unary := fun x => reduce fns x.

(** [compose: (...fns) => Atom_Transform.pipe(...fns.reverse())] *)
Definition compose (fns : list unary) : unary := pipe (rev fns).

End Transform.

(** *** [Module_Logger]: the log array and its subscribers

    The time stamp [new Date().toISOString()] is an argument of [log];
    the messages are strings. *)

Module Logger.

Record entry : Type := MkEntry { time : string; level : string; msg : string }.

Record logger : Type := MkLogger { logs : list entry; evt : Bus }.

Inductive seen : Type :=
| Event (o : obs entry)
| Printed (e : entry).            (* [console.log] *)

(** [msgs.join(sep)] *)
Fixpoint join (sep : string) (msgs : list string) : string :=
  match msgs with
  | [] => ""
  | m :: rest =>
      match rest with
      | [] => m
      | _ :: _ => m ++ sep ++ join sep rest
      end
  end.

Definition on_evt {A} (m : Eff Bus (obs entry) A) : Eff logger seen A :=
  zoom evt (fun b l => MkLogger (logs l) b) Event m.

Section Ops.
Variable code : fn -> handler entry.

(** [log(level, ...msgs)] *)
Definition log (now level : string) (msgs : list string) : Eff logger seen unit :=
  let e := MkEntry now level (join " " msgs) in
  modify (fun l => MkLogger (JsArray.push e (logs l)) (evt l)) ;;
  modify (fun l =>
    if Nat.ltb 1000 (List.length (logs l))
    then MkLogger (tl (logs l)) (evt l)    (* [logs.shift()] *)
    else l) ;;
  on_evt (Event.emit code e) ;;
  tell (Printed e).

Definition info (now : string) (msgs : list string) := log now "INFO" msgs.
Definition warn (now : string) (msgs : list string) := log now "WARN" msgs.
Definition error (now : string) (msgs : list string) := log now "ERROR" msgs.
Definition debug (now : string) (msgs : list string) := log now "DEBUG" msgs.

(** [getLogs: () => [...logs]] *)
Definition getLogs : Eff logger seen (list entry) := gets logs.

Definition onLog (f : fn) : Eff logger seen (Bus -> Bus) := on_evt (Event.on f).
End Ops.

(** The logger that [Module_Logger()] starts with. *)
Definition Module_Logger : logger := MkLogger [] Event.Atom_Event.

End Logger.

Unset Implicit Arguments.

(* ------------------------------------------------------------------ *)
(** ** Vocabulary of the statements *)

(** On payload [d], [f] returns and leaves the subscriber array as it is. *)
Definition passive {D} (code : fn -> handler D) (d : D) (f : fn) : Prop :=
  forall ls, code f d ls = (Returned tt, ls).

(** On payload [d], [f] returns and removes nothing from the subscriber
    array; it may subscribe further handlers. *)
Definition only_subscribes {D} (code : fn -> handler D) (d : D) (f : fn) : Prop :=
  forall ls, exists added, code f d ls = (Returned tt, ls ++ added).

(** On payload [d], no function throws. *)
Definition never_throws {D} (code : fn -> handler D) (d : D) : Prop :=
  forall f ls, fst (code f d ls) = Returned tt.

(** The payload [x] satisfies the rule [r] declared for the field [k]. *)
Definition accepts (x : object jsval) (kr : string * Guard.rule) : Prop :=
  snd kr (JsObject.get x (fst kr)) = true.

(** The three phase methods of a module, each with the hook list it
    runs, the status it writes and the event it emits. *)
Inductive phase_method (hook : fn -> outcome unit) (code : fn -> handler string)
  : Lifecycle.phase -> string -> string -> Eff Mod.module Mod.seen unit -> Prop :=
| Method_init : phase_method hook code Lifecycle.Init "init" "init" (Mod.init hook code)
| Method_start : phase_method hook code Lifecycle.Start "run" "start" (Mod.start hook code)
| Method_stop : phase_method hook code Lifecycle.Stop "stop" "stop" (Mod.stop hook code).

(** The events a module emitted, read off what a call was seen to do. *)
Definition emitted (t : list Mod.seen) : list string :=
  flat_map (fun o => match o with Mod.Event (Emitted ev) => [ev] | _ => [] end) t.

(** The snapshot that [status()] returns. *)
Definition status_of (m : Mod.module) : outcome Mod.snapshot :=
  value (Mod.get_status m).

(** None of the hooks [fs] throws. *)
Definition hooks_return (hook : fn -> outcome unit) (fs : list fn) : Prop :=
  forall f, In f fs -> hook f = Returned tt.

(** The progress payloads a run emitted, and the stages it invoked. *)
Definition progress_events (t : list Pipeline.seen) : list Pipeline.progress :=
  flat_map (fun o => match o with Pipeline.Event (Emitted p) => [p] | _ => [] end) t.









(** Calls made on a state cell, and the cell after a run of them. *)
Inductive cell_op (T : Type) : Type :=
| DoWrite (x : T)
| DoReset.
Arguments DoWrite {T} x.
Arguments DoReset {T}.

Definition cell_step {T} (c : Cell T) (op : cell_op T) : Cell T :=
  match op with
  | DoWrite x => world (State.write (O:=unit) x c)
  | DoReset => world (State.reset (O:=unit) c)
  end.

Definition cell_after {T} (ops : list (cell_op T)) (c : Cell T) : Cell T :=
  fold_left cell_step ops c.

(** Calls made on a store: [set(x)], [on(f)], the unsubscribe closure
    that [on(f)] returned, and [reset()]; and the store after a run of
    them (a call that throws leaves what it had done by then). *)
Inductive store_op : Type :=
| StoreSet (x : Store.payload)
| StoreOn (f : fn)
| StoreOff (f : fn)
| StoreReset.

Definition store_step (code : fn -> handler Store.payload)
    (s : Store.store) (op : store_op) : Store.store :=
  match op with
  | StoreSet x => world (Store.set code x s)
  | StoreOn f => world (Store.on f s)
  | StoreOff f =>
      Store.MkStore (Store.state s) (Event.unsubscribe f (Store.changed s))
        (Store.validator s)
  | StoreReset => world (Store.reset s)
  end.

Definition store_after (code : fn -> handler Store.payload)
    (ops : list store_op) (s : Store.store) : Store.store :=
  fold_left (store_step code) ops s.

(** The store [s] has no validator, or its validator passes [x]. *)
Definition admits (s : Store.store) (x : Store.payload) : Prop :=
  match Store.validator s with
  | None => True
  | Some validate => exists d, validate x = Guard.Ok d
  end.

(** Registrations made on a module before its phases run. *)
Inductive registration : Type :=
| RegInit (f : fn)       (* [onInit(f)] *)
| RegStart (f : fn)      (* [onStart(f)] *)
| RegStop (f : fn)       (* [onStop(f)] *)
| RegOn (f : fn).        (* [on(f)] *)

Definition register (m : Mod.module) (r : registration) : Mod.module :=
  match r with
  | RegInit f => world (Mod.onInit f m)
  | RegStart f => world (Mod.onStart f m)
  | RegStop f => world (Mod.onStop f m)
  | RegOn f => world (Mod.on f m)
  end.

Definition configured (regs : list registration) (m : Mod.module) : Mod.module :=
  fold_left register regs m.

(** The hooks that [regs] registers for the phase [ph], in the order
    of their registration. *)
Definition registered_for (ph : Lifecycle.phase) (regs : list registration) : list fn :=
  flat_map (fun r =>
    match r, ph with
    | RegInit f, Lifecycle.Init => [f]
    | RegStart f, Lifecycle.Start => [f]
    | RegStop f, Lifecycle.Stop => [f]
    | _, _ => []
    end) regs.

(** The subscribers that [regs] puts on the module's bus. *)
Definition subscribed (regs : list registration) : Bus :=
  flat_map (fun r => match r with RegOn f => [Plain f] | _ => [] end) regs.

(** The hooks a call was seen to run. *)
Definition hooks_run (t : list Mod.seen) : list Lifecycle.ran :=
  flat_map (fun o => match o with Mod.Hook r => [r] | Mod.Event _ => [] end) t.

(** The user functions a module's call was seen to invoke on its bus. *)
Definition notified (t : list Mod.seen) : list (fn * string) :=
  flat_map (fun o => match o with Mod.Event (Invoked f ev) => [(f, ev)] | _ => [] end) t.








(** A call of the logger: its time stamp, level and messages. *)
Record log_call : Type := MkLogCall {
  call_time : string; call_level : string; call_msgs : list string
}.

Definition entry_of (c : log_call) : Logger.entry :=
  Logger.MkEntry (call_time c) (call_level c) (Logger.join " " (call_msgs c)).

Definition logger_after (code : fn -> handler Logger.entry)
    (calls : list log_call) (l : Logger.logger) : Logger.logger :=
  fold_left
    (fun l c => world (Logger.log code (call_time c) (call_level c) (call_msgs c) l))
    calls l.

(** The last [n] elements of a list. *)
Definition lastn {T} (n : nat) (l : list T) : list T :=
  skipn (List.length l - n) l.

(** What the logger printed. *)
Definition printed (t : list Logger.seen) : list Logger.entry :=
  flat_map (fun o => match o with Logger.Printed e => [e] | Logger.Event _ => [] end) t.

(* ------------------------------------------------------------------ *)
(** ** Scenarios used as concrete inputs *)

Module Scenario.

(** A handler table where nobody touches the bus or throws. *)
Definition quiet {D} : fn -> handler D := fun _ _ ls => (Returned tt, ls).

(** [f] calls the unsubscribe closure it got from [on(f)]; every
    other function is quiet. *)
Definition self_unsubscribing {D} (f : fn) : fn -> handler D :=
  fun g _ ls =>
    if Nat.eqb g f then (Returned tt, Event.unsubscribe f ls) else (Returned tt, ls).

(** Every function throws [new Error("observer")] on the payloads that
    [test] selects, and is quiet on the others. *)
Definition throwing_on {D} (test : D -> bool) : fn -> handler D :=
  fun _ d ls =>
    if test d then (Thrown (Error "observer"), ls) else (Returned tt, ls).

(** [b.on(f1); b.on(f2); b.on(f3)] on a fresh bus. *)
Definition three_subscribers : Bus :=
  world ((Event.on (D:=string) 1 ;; Event.on 2 ;; Event.on 3) Event.Atom_Event).

(** [b.once(f1); b.on(f2)] on a fresh bus. *)
Definition once_then_on : Bus :=
  world ((Event.once (D:=string) 1 ;; Event.on 2) Event.Atom_Event).

End Scenario.

Module StoreScenario.

(** [const s = Mol_Store({}, { name: required }); s.on(f1); s.on(f2); s.on(f3)] *)
Definition watched : Store.store :=
  world ((Store.on 1 ;; Store.on 2 ;; Store.on 3)
           (Store.Mol_Store [] [("name", Guard.required)])).

(** [Mol_Store({}, { name: required, 0: required })] *)
Definition keyed : Store.store :=
  Store.Mol_Store [] [("name", Guard.required); ("0", Guard.required)].

End StoreScenario.

Module PipelineScenario.

(** [x => x + 1] *)
Definition inc : Pipeline.stage_fn :=
  fun x =>
    match x with
    | VNum n => Returned (VNum (n + 1))
    | _ => Thrown (Error "not a number")
    end.


(** [const p = Mol_Pipeline(inc, inc, inc); p.on(f1)] *)
Definition watched : Pipeline.pipeline :=
  world (Pipeline.on 1 (Pipeline.Mol_Pipeline [inc; inc; inc])).


End PipelineScenario.

Module ModScenario.

(** [const m = Mol_Module("ipc"); m.on(f3)] *)
Definition watched : Mod.module := world (Mod.on 3 (Mod.Mol_Module "ipc" VNull)).

(** The subscriber throws on the ['stop'] event. *)
Definition on_stop : fn -> handler string :=
  Scenario.throwing_on (fun ev => String.eqb ev "stop").

End ModScenario.

Module CoreScenario.

(** Hook 9 throws [new Error("boom")], every other hook returns. *)
Definition hooks : fn -> outcome unit :=
  fun f => if Nat.eqb f 9 then Thrown (Error "boom") else Returned tt.

(** [const m = Mol_Module(name); m.onInit(i); m.onStop(s)] *)
Definition with_hooks (name : string) (i s : fn) : Mod.module :=
  world ((Mod.onInit i ;; Mod.onStop s) (Mod.Mol_Module name VNull)).


End CoreScenario.

Module BusScenario.

(** [f] throws [new Error("handler")]; every other function is quiet. *)
Definition one_throws {D} (f : fn) : fn -> handler D :=
  fun g _ ls =>
    if Nat.eqb g f then (Thrown (Error "handler"), ls) else (Returned tt, ls).

End BusScenario.

Module HubScenario.



(** No hook throws. *)
Definition calm : fn -> outcome unit := fun _ => Returned tt.

End HubScenario.

(* ------------------------------------------------------------------ *)
(** ** Properties of the event bus *)

Section EventFacts.
Context {D : Type}.
Variable code : fn -> handler D.
Variable d : D.

Lemma skipn_nth_error (T : Type) (l : list T) k x :
  nth_error l k = Some x -> skipn k l = x :: skipn (S k) l.
Proof.
  revert k; induction l as [|y l IH]; intros [|k] H; simpl in *; try discriminate.
  - now inversion H.
  - now apply IH.
Qed.

Lemma passive_only_subscribes f : passive code d f -> only_subscribes code d f.
Proof. intros H ls. exists []. now rewrite app_nil_r. Qed.

(** Handlers that only subscribe leave the first [length ls] elements
    in place, and these are the ones the pass visits. *)
Lemma forEach_only_subscribing n : forall k ls added,
  (forall l, In l ls -> exists f, l = Plain f /\ only_subscribes code d f) ->
  k + n = List.length ls ->
  exists added',
    Event.forEach_from code n k d (ls ++ added)
    = Result (Returned tt) (ls ++ added')
        (map (fun l => Invoked (target l) d) (skipn k ls)).
Proof.
  induction n as [|n IH]; intros k ls added Hp Hlen; simpl.
  - exists added. rewrite skipn_all2 by lia. reflexivity.
  - assert (Hk : k < List.length ls) by lia.
    rewrite (nth_error_app1 ls added Hk).
    destruct (nth_error ls k) as [l|] eqn:E;
      [|apply nth_error_None in E; lia].
    destruct (Hp l (nth_error_In _ _ E)) as [f [-> Hf]].
    destruct (Hf (ls ++ added)) as [more Hmore].
    destruct (IH (S k) ls (added ++ more) Hp) as [added' Hrest]; [lia|].
    exists added'. unfold bind; simpl. unfold Event.apply_fn.
    rewrite Hmore. simpl. rewrite <- app_assoc, Hrest. simpl.
    rewrite (skipn_nth_error _ _ _ _ E). reflexivity.
Qed.

Lemma emit_only_subscribing ls :
  (forall l, In l ls -> exists f, l = Plain f /\ only_subscribes code d f) ->
  exists added,
    Event.emit code d ls
    = Result (Returned tt) (ls ++ added)
        (Emitted d :: map (fun l => Invoked (target l) d) ls).
Proof.
  intros Hp.
  destruct (forEach_only_subscribing (List.length ls) 0 ls [] Hp eq_refl)
    as [added H].
  exists added. unfold Event.emit, bind; simpl.
  rewrite app_nil_r in H. now rewrite H.
Qed.

Lemma call_emissions l ls : emissions (trace (Event.call code l d ls)) = [].
Proof.
  destruct l as [f|f]; simpl; unfold bind, Event.apply_fn; simpl;
    destruct (code f d ls) as [[[]|e] ls']; reflexivity.
Qed.

Lemma emissions_app (t1 t2 : list (obs D)) :
  emissions (t1 ++ t2) = emissions t1 ++ emissions t2.
Proof. apply flat_map_app. Qed.

Lemma forEach_emissions n : forall k ls,
  emissions (trace (Event.forEach_from code n k d ls)) = [].
Proof.
  induction n as [|n IH]; intros k ls; simpl; [reflexivity|].
  destruct (nth_error ls k) as [l|]; [|apply IH].
  unfold bind. pose proof (call_emissions l ls) as Hc.
  destruct (value (Event.call code l d ls)); simpl; [|exact Hc].
  now rewrite emissions_app, Hc, IH.
Qed.

(** Whatever the handlers do, one [emit(d)] is one emission of [d]. *)
Lemma emit_emissions ls : emissions (trace (Event.emit code d ls)) = [d].
Proof.
  unfold Event.emit, bind; simpl.
  destruct (value (Event.forEach_from code (List.length ls) 0 d ls)); simpl;
    now rewrite forEach_emissions.
Qed.

Lemma call_returns l ls :
  never_throws code d -> value (Event.call code l d ls) = Returned tt.
Proof.
  intros H. destruct l as [f|f]; simpl; unfold bind, Event.apply_fn;
    specialize (H f ls); destruct (code f d ls) as [o ls']; simpl in *;
    subst o; reflexivity.
Qed.

Lemma forEach_returns n : forall k ls,
  never_throws code d -> value (Event.forEach_from code n k d ls) = Returned tt.
Proof.
  induction n as [|n IH]; intros k ls H; simpl; [reflexivity|].
  destruct (nth_error ls k) as [l|]; [|now apply IH].
  unfold bind. rewrite (call_returns l ls H). simpl. now apply IH.
Qed.

Lemma emit_returns ls : never_throws code d -> value (Event.emit code d ls) = Returned tt.
Proof.
  intros H. unfold Event.emit, bind; simpl. now rewrite forEach_returns.
Qed.
End EventFacts.

(** C1, as stated, fails: with three subscribers of which the second
    unsubscribes itself while it runs, one [emit] invokes the first two
    and never reaches the third, so the handlers invoked are not the
    ones subscribed when the emission began. *)
Lemma emit_skips_after_unsubscribe :
  let r := Event.emit (Scenario.self_unsubscribing 2) "p" Scenario.three_subscribers in
  Scenario.three_subscribers = [Plain 1; Plain 2; Plain 3]
  /\ invocations (trace r) = [(1, "p"); (2, "p")]
  /\ ~ In (3, "p") (invocations (trace r))
  /\ invocations (trace r)
     <> map (fun l => (target l, "p")) Scenario.three_subscribers.
Proof.
  cbv zeta. repeat split.
  - intros [H|[H|[]]]; discriminate H.
  - vm_compute. discriminate.
Qed.

(** C1, amended: [emit(p)] walks the live subscriber array by index, up
    to the length it had when the emission began.  If no handler
    unsubscribes or throws during the pass (handlers may subscribe
    further ones), it invokes exactly the handlers subscribed at that
    moment, in subscription order; with three subscribers of which the
    second unsubscribes itself during its own invocation, one [emit]
    invokes the first two and skips the third. *)
Theorem emit_live_iteration (D : Type) (code : fn -> handler D) (d : D) :
  (forall ls,
     (forall l, In l ls -> exists f, l = Plain f /\ only_subscribes code d f) ->
     exists added,
       Event.emit code d ls
       = Result (Returned tt) (ls ++ added)
           (Emitted d :: map (fun l => Invoked (target l) d) ls))
  /\
  (forall f1 f2 f3,
     passive code d f1 ->
     (forall ls, code f2 d ls = (Returned tt, Event.unsubscribe f2 ls)) ->
     let r := Event.emit code d [Plain f1; Plain f2; Plain f3] in
     value r = Returned tt
     /\ invocations (trace r) = [(f1, d); (f2, d)]
     /\ world r = [Plain f1; Plain f3]).
Proof.
  split.
  - intros ls Hp. now apply emit_only_subscribing.
  - intros f1 f2 f3 H1 H2.
    assert (Hne : Nat.eqb f1 f2 = false).
    { apply Nat.eqb_neq. intros ->.
      specialize (H1 [Plain f2]). specialize (H2 [Plain f2]).
      rewrite H1 in H2. unfold Event.unsubscribe, JsArray.indexOf in H2.
      simpl in H2. rewrite Nat.eqb_refl in H2. discriminate H2. }
    assert (Hu : Event.unsubscribe f2 [Plain f1; Plain f2; Plain f3]
                 = [Plain f1; Plain f3]).
    { unfold Event.unsubscribe, JsArray.indexOf. simpl.
      rewrite Hne, Nat.eqb_refl. reflexivity. }
    assert (A1 : forall ls, Event.apply_fn code f1 d ls
                            = Result (Returned tt) ls [Invoked f1 d]).
    { intros ls. unfold Event.apply_fn. now rewrite H1. }
    assert (A2 : forall ls, Event.apply_fn code f2 d ls
                            = Result (Returned tt) (Event.unsubscribe f2 ls) [Invoked f2 d]).
    { intros ls. unfold Event.apply_fn. now rewrite H2. }
    cbv zeta. unfold Event.emit.
    repeat (unfold bind; simpl; rewrite ?A1, ?A2, ?Hu; simpl).
    auto.
Qed.

Lemma emit_live_iteration_witness :
  (exists added,
     Event.emit Scenario.quiet "p" [Plain 1; Plain 2]
     = Result (Returned tt) ([Plain 1; Plain 2] ++ added)
         [Emitted "p"; Invoked 1 "p"; Invoked 2 "p"])
  /\ invocations
       (trace (Event.emit (Scenario.self_unsubscribing 2) "p"
                 [Plain 1; Plain 2; Plain 3]))
     = [(1, "p"); (2, "p")].
Proof.
  split.
  - apply (proj1 (emit_live_iteration string Scenario.quiet "p") [Plain 1; Plain 2]).
    intros l [<-|[<-|[]]]; eexists; (split; [reflexivity|]);
      intros ls; exists []; now rewrite app_nil_r.
  - apply (proj2 (emit_live_iteration string (Scenario.self_unsubscribing 2) "p") 1 2 3).
    + intros ls; reflexivity.
    + intros ls; reflexivity.
Defined.

(** Alone on the bus, a one-shot handler does what [once] is meant to
    do: it fires on the first emit, is removed, and stays silent on the
    second. *)
Example once_alone_fires_once :
  let r1 := Event.emit Scenario.quiet "a" [OnceWrapper 1] in
  let r2 := Event.emit Scenario.quiet "b" (world r1) in
  invocations (trace r1) = [(1, "a")] /\ world r1 = []
  /\ invocations (trace r2) = [].
Proof. cbv zeta. repeat split. Qed.

(** C7 at its failing input, [b.once(f1); b.on(f2); b.emit("a");
    b.emit("b")]: the auto-removal after the first firing pops the last
    subscriber, [f2], which is thereby unsubscribed without ever being
    invoked, and the one-shot handler [f1] fires again on the second
    emit. *)
Theorem once_pops_the_last_subscriber :
  let r1 := Event.emit Scenario.quiet "a" Scenario.once_then_on in
  let r2 := Event.emit Scenario.quiet "b" (world r1) in
  Scenario.once_then_on = [OnceWrapper 1; Plain 2]
  /\ invocations (trace r1) = [(1, "a")]
  /\ world r1 = [OnceWrapper 1]
  /\ invocations (trace r2) = [(1, "b")]
  /\ world r2 = [].
Proof. cbv zeta. repeat split. Qed.

(* ------------------------------------------------------------------ *)
(** ** Properties of the guard and of the store *)

Section EntriesFacts.
Context {T : Type}.
Implicit Types (o : object T) (e : string * T).

Lemma In_insert_index n e (l : list (N * (string * T))) x :
  In x (JsObject.insert_index n e l) <-> x = (n, e) \/ In x l.
Proof.
  induction l as [|[m e'] l IH]; simpl.
  - intuition congruence.
  - destruct (n <? m)%N; simpl; [intuition congruence|].
    rewrite IH. intuition congruence.
Qed.

Lemma In_indexed o n e :
  In (n, e) (JsObject.indexed o)
  <-> In e o /\ JsObject.array_index (fst e) = Some n.
Proof.
  induction o as [|e' o IH]; simpl; [tauto|].
  destruct (JsObject.array_index (fst e')) as [m|] eqn:E.
  - rewrite In_insert_index, IH. split.
    + intros [H|H]; [inversion H; subst; auto | tauto].
    + intros [[->|H] Hn]; [left; congruence | tauto].
  - rewrite IH. split; [tauto|].
    intros [[->|H] Hn]; [congruence | tauto].
Qed.

(** [Object.entries] reorders the own properties, it neither adds nor
    drops one. *)
Lemma In_entries o e : In e (JsObject.entries o) <-> In e o.
Proof.
  unfold JsObject.entries, JsObject.named.
  rewrite in_app_iff, in_map_iff, filter_In. split.
  - intros [[[n e'] [<- H]]|[H _]]; [|exact H].
    now apply In_indexed in H.
  - intros H. destruct (JsObject.array_index (fst e)) as [n|] eqn:E.
    + left. exists (n, e). split; [reflexivity|]. now apply In_indexed.
    + right. split; [exact H | reflexivity].
Qed.
End EntriesFacts.

Section GuardFacts.
Variable x : object jsval.

Lemma check_all_accept es :
  (forall kr, In kr es -> accepts x kr) -> Guard.check es x = Guard.Ok x.
Proof.
  induction es as [|[k r] es IH]; intros H; simpl; [reflexivity|].
  rewrite (H (k, r) (or_introl eq_refl)). simpl. apply IH.
  intros kr Hkr. apply H. now right.
Qed.

Lemma check_first_reject (pre : list (string * Guard.rule)) k (r : Guard.rule) post :
  (forall kr, In kr pre -> accepts x kr) ->
  r (JsObject.get x k) = false ->
  Guard.check (pre ++ (k, r) :: post) x = Guard.Fail k.
Proof.
  induction pre as [|[k' r'] pre IH]; intros H Hr; simpl.
  - now rewrite Hr.
  - rewrite (H (k', r') (or_introl eq_refl)). simpl. apply IH; [|exact Hr].
    intros kr Hkr. apply H. now right.
Qed.

Lemma first_reject_exists (es : list (string * Guard.rule)) :
  (exists kr, In kr es /\ ~ accepts x kr) ->
  exists pre k r post,
    es = pre ++ (k, r) :: post
    /\ (forall kr, In kr pre -> accepts x kr)
    /\ r (JsObject.get x k) = false.
Proof.
  induction es as [|[k r] es IH]; intros [kr [Hin Hno]]; [destruct Hin|].
  destruct (r (JsObject.get x k)) eqn:E.
  - destruct IH as [pre [k' [r' [post [-> [Hpre Hr']]]]]].
    { exists kr. split; [|exact Hno].
      destruct Hin as [<-|Hin]; [|exact Hin]. now elim Hno. }
    exists ((k, r) :: pre), k', r', post. repeat split; auto.
    intros kr' [<-|H]; [exact E | now apply Hpre].
  - exists [], k, r, es. repeat split; auto. intros kr' [].
Qed.
End GuardFacts.

(** C2, as stated, fails on both branches.  A valid [set] on a store
    with three subscribers of which the second unsubscribes itself
    while it runs reaches only the first two.  With the schema declared
    as [{ name: required, 0: required }] and a payload that violates
    both rules, the error names ["0"], which [Object.entries] lists
    first, and not ["name"], the first violated rule in declaration
    order. *)
Lemma set_misses_a_subscriber_and_reorders_rules :
  (let x := [("name", VStr "x")] in
   let r := Store.set (Scenario.self_unsubscribing 2) x StoreScenario.watched in
   Store.changed StoreScenario.watched = [Plain 1; Plain 2; Plain 3]
   /\ value r = Returned x
   /\ invocations (trace r) = [(1, x); (2, x)]
   /\ ~ In (3, x) (invocations (trace r)))
  /\
  (let r := Store.set Scenario.quiet [] StoreScenario.keyed in
   Guard.required (JsObject.get [] "name") = false
   /\ value r = Thrown (Error "Invalid: 0")
   /\ value r <> Thrown (Error "Invalid: name")).
Proof.
  cbv zeta. repeat split; try discriminate.
  intros [H|[H|[]]]; discriminate H.
Qed.

(** C2, amended: for every store built with a schema, [set(v)] is
    atomic with respect to validation.  If [v] satisfies every rule,
    the stored value is replaced by [v], [get()] afterwards returns
    exactly [v], and, provided no subscriber unsubscribes or throws
    during the emission, every current subscriber receives exactly one
    emission of [v] in subscription order and [set] returns [v].  If [v] violates a rule, [set] throws an [Error] whose message
    is ["Invalid: "] followed by the first violated field in the order
    of [Object.entries(schema)] (array-index keys ascending, then the
    other keys in declaration order), the store is unchanged and no
    subscriber is invoked. *)
Theorem set_is_atomic (code : fn -> handler Store.payload)
    (init : Store.payload) (schema : object Guard.rule)
    (s : Store.store) (x : Store.payload) :
  Store.validator s = Store.validator (Store.Mol_Store init schema) ->
  ((forall kr, In kr schema -> accepts x kr) ->
   let r := Store.set code x s in
   value (Store.get (world r)) = Returned x
   /\ emissions (trace r) = [x]
   /\ ((forall l, In l (Store.changed s) ->
          exists f, l = Plain f /\ only_subscribes code x f) ->
       exists added,
         r = Result (Returned x)
               (Store.MkStore (MkCell (initial (Store.state s)) x)
                  (Store.changed s ++ added) (Store.validator s))
               (Emitted x :: map (fun l => Invoked (target l) x) (Store.changed s))))
  /\
  ((exists kr, In kr schema /\ ~ accepts x kr) ->
   exists pre k r post,
     JsObject.entries schema = pre ++ (k, r) :: post
     /\ (forall kr, In kr pre -> accepts x kr)
     /\ r (JsObject.get x k) = false
     /\ Store.set code x s = Result (Thrown (Error ("Invalid: " ++ k))) s []).
Proof.
  intros Hv. split.
  - intros Hall.
    assert (Hpass : match Store.validator s with
                    | Some validate => validate x = Guard.Ok x
                    | None => True
                    end).
    { rewrite Hv. simpl.
      destruct (Nat.eqb _ 0); [exact I|].
      apply check_all_accept. intros kr Hkr. apply Hall. now apply In_entries. }
    cbv zeta. unfold Store.set, Store.get, Store.on_state, Store.on_changed.
    destruct s as [cell bus val]; simpl in *.
    assert (Hgo : forall k : unit -> Eff Store.store (obs Store.payload) Store.payload,
      bind (match val with
            | Some validate =>
                match validate x with
                | Guard.Fail field => throw (Error ("Invalid: " ++ field))
                | Guard.Ok _ => ret tt
                end
            | None => ret tt
            end) k (Store.MkStore cell bus val)
      = k tt (Store.MkStore cell bus val)).
    { intros k. destruct val as [validate|]; [rewrite Hpass|];
        unfold bind; simpl; now destruct (k tt _). }
    rewrite Hgo. clear Hgo.
    pose proof (emit_emissions code x bus) as He.
    unfold bind, zoom, State.write, State.read, modify, ret, gets.
    cbn [value world trace Store.state Store.changed Store.validator].
    split; [|split].
    + destruct (Event.emit code x bus) as [[[]|err] we te]; reflexivity.
    + destruct (Event.emit code x bus) as [[[]|err] we te]; cbn in *;
        rewrite ?app_nil_r, map_id; exact He.
    + intros Hp. destruct (emit_only_subscribing code x bus Hp) as [added E].
      exists added. rewrite E. cbn. now rewrite app_nil_r, map_id.
  - intros [kr [Hin Hno]].
    destruct (first_reject_exists x (JsObject.entries schema))
      as [pre [k [r [post [He [Hpre Hr]]]]]].
    { exists kr. split; [now apply In_entries | exact Hno]. }
    exists pre, k, r, post. repeat split; auto.
    assert (Hne : Nat.eqb (List.length (JsObject.keys schema)) 0 = false).
    { unfold JsObject.keys. rewrite He, length_map, length_app. simpl.
      apply Nat.eqb_neq. lia. }
    unfold Store.set. rewrite Hv. simpl. rewrite Hne.
    unfold Guard.validate. rewrite He, (check_first_reject x pre k r post Hpre Hr).
    reflexivity.
Qed.

Lemma set_is_atomic_witness :
  let x := [("name", VStr "x")] in
  let s := StoreScenario.watched in
  (exists added,
     Store.set Scenario.quiet x s
     = Result (Returned x)
         (Store.MkStore (MkCell (initial (Store.state s)) x)
            (Store.changed s ++ added) (Store.validator s))
         (Emitted x :: map (fun l => Invoked (target l) x) (Store.changed s)))
  /\ exists k, Store.set Scenario.quiet [] s
               = Result (Thrown (Error ("Invalid: " ++ k))) s [].
Proof.
  cbv zeta. split.
  - refine (proj2 (proj2 (proj1
      (set_is_atomic Scenario.quiet [] [("name", Guard.required)]
         StoreScenario.watched [("name", VStr "x")] eq_refl) _)) _).
    + intros kr [<-|[]]. reflexivity.
    + intros l [<-|[<-|[<-|[]]]]; eexists; (split; [reflexivity|]);
        intros ls; exists []; now rewrite app_nil_r.
  - destruct (proj2
      (set_is_atomic Scenario.quiet [] [("name", Guard.required)]
         StoreScenario.watched [] eq_refl)) as [pre [k [r [post [_ [_ [_ H]]]]]]].
    + exists ("name", Guard.required). split; [now left | discriminate].
    + exists k. exact H.
Defined.

(* ------------------------------------------------------------------ *)
(** ** Properties of the module state machine *)

Section ModuleFacts.
Variable hook : fn -> outcome unit.
Variable code : fn -> handler string.

Lemma hooks_all_return ph fs t :
  hooks_return hook fs ->
  Lifecycle.forEach hook ph fs t
  = Result (Returned tt) t (map (Lifecycle.Ran ph) fs).
Proof.
  induction fs as [|f fs IH]; intros H; simpl; [reflexivity|].
  unfold bind, settle, tell; simpl.
  rewrite (H f (or_introl eq_refl)); simpl.
  rewrite IH; [reflexivity|]. intros g Hg. apply H. now right.
Qed.

(** The first hook that throws ends the pass with its exception. *)
Lemma hooks_first_throw ph fs t :
  (exists f e, In f fs /\ hook f = Thrown e) ->
  exists pre f e post,
    fs = pre ++ f :: post /\ hooks_return hook pre /\ hook f = Thrown e
    /\ Lifecycle.forEach hook ph fs t
       = Result (Thrown e) t (map (Lifecycle.Ran ph) (pre ++ [f])).
Proof.
  induction fs as [|g fs IH]; intros [f [e [Hin Hf]]]; [destruct Hin|].
  destruct (hook g) as [[]|eg] eqn:Eg.
  - assert (Hrest : exists f e, In f fs /\ hook f = Thrown e).
    { destruct Hin as [->|Hin]; [congruence|]. now exists f, e. }
    destruct (IH Hrest) as [pre [f' [e' [post [-> [Hpre [Hf' Hrun]]]]]]].
    exists (g :: pre), f', e', post. repeat split; auto.
    + intros h [<-|Hh]; auto.
    + simpl. unfold bind, settle, tell; simpl. rewrite Eg; simpl.
      now rewrite Hrun.
  - exists [], g, eg, fs. repeat split; auto.
    + intros h [].
    + simpl. unfold bind, settle, tell; simpl. now rewrite Eg.
Qed.


Lemma emitted_hooks (t : list Lifecycle.ran) : emitted (map Mod.Hook t) = [].
Proof. induction t; simpl; auto. Qed.


(** What a phase method does once its hooks have returned: the status
    is written, then the event is emitted on the module's bus. *)
Lemma method_after_hooks ph st ev method m :
  phase_method hook code ph st ev method ->
  hooks_return hook (Lifecycle.h (Mod.lc m) ph) ->
  let e := Event.emit code ev (Mod.evt m) in
  method m
  = Result (value e)
      (Mod.MkModule (Mod.name m) (Mod.cfg m) (Mod.lc m)
         (MkCell (initial (Mod.state m)) (Mod.MkSnapshot st VNull)) (world e))
      (map Mod.Hook (map (Lifecycle.Ran ph) (Lifecycle.h (Mod.lc m) ph))
       ++ map Mod.Event (trace e)).
Proof.
  intros Hm Hh. destruct m as [n c t s b]. cbv zeta.
  cbn [Mod.name Mod.cfg Mod.lc Mod.state Mod.evt] in *.
  destruct Hm; unfold Mod.init, Mod.start, Mod.stop, Mod.on_lc, Mod.on_state,
    Mod.on_evt, Lifecycle.run, bind, zoom, State.write, modify, ret;
    cbn [value world trace Mod.name Mod.cfg Mod.lc Mod.state Mod.evt];
    rewrite (hooks_all_return _ _ t Hh);
    cbn [value world trace Mod.name Mod.cfg Mod.lc Mod.state Mod.evt initial];
    destruct (Event.emit code _ b) as [[[]|e] w tr]; cbn;
    rewrite ?app_nil_r; reflexivity.
Qed.

(** What a phase method does when one of its hooks throws. *)
Lemma method_when_hook_throws ph st ev method m :
  phase_method hook code ph st ev method ->
  (exists f e, In f (Lifecycle.h (Mod.lc m) ph) /\ hook f = Thrown e) ->
  exists pre f e post,
    Lifecycle.h (Mod.lc m) ph = pre ++ f :: post
    /\ hooks_return hook pre /\ hook f = Thrown e
    /\ method m
       = Result (Thrown e) m (map Mod.Hook (map (Lifecycle.Ran ph) (pre ++ [f]))).
Proof.
  intros Hm Hex. destruct m as [n c t s b]. simpl in *.
  destruct (hooks_first_throw ph _ t Hex) as [pre [f [e [post [Hfs [Hpre [Hf Hrun]]]]]]].
  exists pre, f, e, post. repeat split; auto.
  destruct Hm; unfold Mod.init, Mod.start, Mod.stop, Mod.on_lc, Lifecycle.run,
    bind, zoom;
    cbn [value world trace Mod.name Mod.cfg Mod.lc Mod.state Mod.evt];
    rewrite Hrun; reflexivity.
Qed.
End ModuleFacts.



(** C8: if a hook registered for a phase throws when that phase method
    is invoked, the exception reaches the caller, [status()] returns
    the same snapshot as before the call (so no ['error'] status
    appears), and the call emits no phase event. *)
Theorem hook_exception_propagates hook code ph st ev method (m : Mod.module) :
  phase_method hook code ph st ev method ->
  (exists f e, In f (Lifecycle.h (Mod.lc m) ph) /\ hook f = Thrown e) ->
  let r := method m in
  (exists f e, In f (Lifecycle.h (Mod.lc m) ph) /\ hook f = Thrown e
               /\ value r = Thrown e)
  /\ world r = m
  /\ status_of (world r) = status_of m
  /\ (forall x, status_of m <> Returned (Mod.MkSnapshot "error" x) ->
                status_of (world r) <> Returned (Mod.MkSnapshot "error" x))
  /\ emitted (trace r) = []
  /\ (forall o, ~ In (Mod.Event o) (trace r)).
Proof.
  intros Hm Hex r.
  destruct (method_when_hook_throws hook code _ _ _ _ m Hm Hex)
    as [pre [f [e [post [Hfs [Hpre [Hf Hrun]]]]]]].
  fold r in Hrun. rewrite Hrun. cbn [value world trace].
  repeat split; auto.
  - exists f, e. repeat split; auto. rewrite Hfs. apply in_or_app. right. now left.
  - apply emitted_hooks.
  - intros o Ho. apply in_map_iff in Ho. destruct Ho as [x [Hx _]]. discriminate Hx.
Qed.

Lemma hook_exception_propagates_witness :
  let hook := fun f : fn => if Nat.eqb f 9 then Thrown (Error "boom") else Returned tt in
  let m := world ((Mod.onStart 1 ;; Mod.onStart 9 ;; Mod.on 3)
                    (Mod.Mol_Module "window" VNull)) in
  let r := Mod.start hook Scenario.quiet m in
  value r = Thrown (Error "boom") /\ world r = m /\ emitted (trace r) = [].
Proof.
  cbv zeta.
  pose (hook := fun f : fn => if Nat.eqb f 9 then Thrown (Error "boom") else Returned tt).
  pose (m := world ((Mod.onStart 1 ;; Mod.onStart 9 ;; Mod.on 3)
                      (Mod.Mol_Module "window" VNull))).
  assert (Hex : exists f e, In f (Lifecycle.h (Mod.lc m) Lifecycle.Start)
                            /\ hook f = Thrown e).
  { exists 9, (Error "boom"). split; [right; left|]; reflexivity. }
  destruct (hook_exception_propagates hook Scenario.quiet _ _ _ _ m
              (Method_start hook Scenario.quiet) Hex)
    as [_ [Hw [_ [_ [He _]]]]].
  split; [reflexivity | split; [exact Hw | exact He]].
Defined.

(** C10, as stated, fails in one respect: [stop()] on a fresh module
    whose hooks do not throw still rejects when a subscriber of the
    module's bus throws on the ['stop'] event; the status has been
    overwritten by then. *)
Lemma stop_rejects_when_a_subscriber_throws :
  let r := Mod.stop (fun _ => Returned tt) ModScenario.on_stop ModScenario.watched in
  hooks_return (fun _ => Returned tt)
    (Lifecycle.h (Mod.lc ModScenario.watched) Lifecycle.Stop)
  /\ value r = Thrown (Error "observer")
  /\ value r <> Returned tt
  /\ status_of (world r) = Returned (Mod.MkSnapshot "stop" VNull).
Proof.
  cbv zeta. repeat split; try discriminate.
Qed.

(** C10, amended: the phase methods enforce no ordering precondition.
    For every module whose hooks do not throw, each of [init()],
    [start()], [stop()], called from any current status and in any
    order, overwrites the status cell with its own status value, and
    it succeeds provided no subscriber of the module's bus throws on
    the phase event; so [stop()] on a freshly created idle module
    succeeds and sets the status to ['stop']. *)
Theorem phase_methods_have_no_precondition hook code ph st ev method
    (m : Mod.module) :
  phase_method hook code ph st ev method ->
  hooks_return hook (Lifecycle.h (Mod.lc m) ph) ->
  let r := method m in
  status_of (world r) = Returned (Mod.MkSnapshot st VNull)
  /\ (never_throws code ev -> value r = Returned tt).
Proof.
  intros Hm Hh r.
  assert (E := method_after_hooks hook code _ _ _ _ m Hm Hh).
  cbv zeta in E. fold r in E. rewrite E. split; [reflexivity|].
  intros Hn. cbn [value]. now apply emit_returns.
Qed.

Lemma phase_methods_have_no_precondition_witness :
  let r := Mod.stop (fun _ => Returned tt) Scenario.quiet
             (Mod.Mol_Module "ipc" VNull) in
  status_of (Mod.Mol_Module "ipc" VNull) = Returned (Mod.MkSnapshot "idle" VNull)
  /\ status_of (world r) = Returned (Mod.MkSnapshot "stop" VNull)
  /\ value r = Returned tt.
Proof.
  cbv zeta. split; [reflexivity|].
  destruct (phase_methods_have_no_precondition (fun _ => Returned tt) Scenario.quiet
              _ _ _ _ (Mod.Mol_Module "ipc" VNull)
              (Method_stop (fun _ => Returned tt) Scenario.quiet)) as [Hs Hv].
  - intros f [].
  - split; [exact Hs|]. apply Hv. intros f ls. reflexivity.
Defined.

(* ------------------------------------------------------------------ *)
(** ** Properties of the pipeline *)

Section PipelineFacts.
Variable code : fn -> handler Pipeline.progress.







End PipelineFacts.




(** C9: a pipeline with no stage resolves [run(input)] to [input]
    itself and emits no progress event. *)
Theorem run_without_stages code (input : jsval) (bus : Bus) :
  let r := Pipeline.run code input (Pipeline.MkPipeline [] bus) in
  value r = Returned input
  /\ trace r = []
  /\ progress_events (trace r) = []
  /\ world r = Pipeline.MkPipeline [] bus.
Proof. cbv zeta. repeat split. Qed.

(* ------------------------------------------------------------------ *)
(** ** Properties of the core sweeps *)

Section BindFacts.
Context {W O A B : Type}.
Variables (m : Eff W O A) (k : A -> Eff W O B) (w : W).


End BindFacts.

Section CoreFacts.
Variables (ph : Lifecycle.phase) (method : Eff Mod.module Mod.seen unit).





End CoreFacts.

(** The sweeps on the registry of [HKO_HUB_Core()], no hook throwing. *)
Example init_order_of_the_hub :
  Core.calls (trace (Core.init (fun _ => Returned tt) Scenario.quiet Core.HKO_HUB_Core))
  = [("logger", Lifecycle.Init); ("config", Lifecycle.Init); ("state", Lifecycle.Init);
     ("window", Lifecycle.Init); ("ipc", Lifecycle.Init)].
Proof. reflexivity. Qed.

Example stop_order_of_the_hub :
  Core.calls (trace (Core.stop (fun _ => Returned tt) Scenario.quiet Core.HKO_HUB_Core))
  = [("ipc", Lifecycle.Stop); ("window", Lifecycle.Stop); ("state", Lifecycle.Stop);
     ("config", Lifecycle.Stop); ("logger", Lifecycle.Stop)].
Proof. reflexivity. Qed.







(* ------------------------------------------------------------------ *)
(** ** Further properties: the state cell *)

Section CellFacts.
Context {T : Type}.

Lemma cell_step_initial (c : Cell T) op : initial (cell_step c op) = initial c.
Proof. destruct op; reflexivity. Qed.

Lemma cell_after_initial ops : forall c : Cell T, initial (cell_after ops c) = initial c.
Proof.
  unfold cell_after.
  induction ops as [|op ops IH]; intros c; simpl; [reflexivity|].
  now rewrite IH, cell_step_initial.
Qed.
End CellFacts.

(** X1: whatever was written to and reset on a state cell before,
    [write(x)] returns [x] and a following [read()] returns [x], and
    [reset()] returns the value the cell was constructed with, which a
    following [read()] returns too. *)
Theorem cell_round_trips (T : Type) (init : T) (ops : list (cell_op T)) (x : T) :
  let c := cell_after ops (State.Atom_State init) in
  let w := State.write (O:=unit) x c in
  let r := State.reset (O:=unit) c in
  value w = Returned x
  /\ value (State.read (O:=unit) (world w)) = Returned x
  /\ value r = Returned init
  /\ value (State.read (O:=unit) (world r)) = Returned init
  /\ value (State.reset (O:=unit) (world w)) = Returned init.
Proof.
  intros c w r.
  assert (Hi : initial c = init) by apply (cell_after_initial ops (State.Atom_State init)).
  unfold w, r, State.write, State.reset, State.read, bind, modify, gets, ret.
  cbn [value world trace v initial]. rewrite Hi. repeat split.
Qed.

(* ------------------------------------------------------------------ *)
(** ** Further properties: the event bus *)

Section UnsubscribeFacts.
Variable f : fn.

Lemma listener_eqb_other l : l <> Plain f -> listener_eqb l (Plain f) = false.
Proof.
  destruct l as [g|g]; simpl; intros H; [|reflexivity].
  apply Nat.eqb_neq. intros ->. now apply H.
Qed.

Lemma indexOf_from_absent ls : forall i,
  ~ In (Plain f) ls -> JsArray.indexOf_from listener_eqb i (Plain f) ls = (-1)%Z.
Proof.
  induction ls as [|l ls IH]; intros i H; simpl; [reflexivity|].
  rewrite listener_eqb_other by (intros ->; apply H; now left).
  apply IH. intros Hin. apply H. now right.
Qed.

Lemma indexOf_from_first pre post : forall i,
  ~ In (Plain f) pre ->
  JsArray.indexOf_from listener_eqb i (Plain f) (pre ++ Plain f :: post)
  = (i + Z.of_nat (List.length pre))%Z.
Proof.
  induction pre as [|l pre IH]; intros i H; simpl.
  - rewrite Nat.eqb_refl. lia.
  - rewrite listener_eqb_other by (intros ->; apply H; now left).
    rewrite IH by (intros Hin; apply H; now right). lia.
Qed.

Lemma remove_at_middle (A : Type) (pre : list A) x post :
  JsArray.remove_at (List.length pre) (pre ++ x :: post) = pre ++ post.
Proof.
  unfold JsArray.remove_at. induction pre as [|a pre IH]; [reflexivity|].
  change (a :: (firstn (List.length pre) (pre ++ x :: post)
                ++ skipn (S (List.length pre)) (pre ++ x :: post))
          = a :: (pre ++ post)).
  now rewrite IH.
Qed.

Lemma remove_at_last (A : Type) (l : list A) :
  JsArray.remove_at (pred (List.length l)) l = removelast l.
Proof.
  unfold JsArray.remove_at. induction l as [|a [|b l] IH]; try reflexivity.
  change (pred (List.length (a :: b :: l))) with (S (pred (List.length (b :: l)))).
  change (removelast (a :: b :: l)) with (a :: removelast (b :: l)).
  rewrite <- IH. reflexivity.
Qed.

Lemma splice1_at (A : Type) (n : nat) (l : list A) :
  n <= List.length l ->
  JsArray.splice1 (Z.of_nat n) l = JsArray.remove_at n l.
Proof.
  intros H. unfold JsArray.splice1.
  destruct (Z.ltb_spec (Z.of_nat n) 0); [lia|].
  rewrite Z.min_l by lia. now rewrite Nat2Z.id.
Qed.

Lemma splice1_minus_one (A : Type) (l : list A) :
  JsArray.splice1 (-1) l = removelast l.
Proof.
  unfold JsArray.splice1. change (-1 <? 0)%Z with true. cbv iota zeta.
  rewrite <- remove_at_last. f_equal.
  destruct l as [|a l]; [reflexivity|].
  change (List.length (a :: l)) with (S (List.length l)).
  rewrite Nat2Z.inj_succ. simpl pred. lia.
Qed.
End UnsubscribeFacts.

(** X2: the unsubscribe closure of [on(f)] removes the first
    subscription of [f] and nothing else; in particular, subscribing a
    handler that is not on the bus and then unsubscribing it gives the
    subscriber array back. *)
Theorem unsubscribe_removes_the_first_subscription (f : fn) (pre post : Bus) :
  ~ In (Plain f) pre ->
  Event.unsubscribe f (pre ++ Plain f :: post) = pre ++ post
  /\ Event.unsubscribe f (world (Event.on (D:=unit) f pre)) = pre.
Proof.
  intros H.
  assert (E : forall post', Event.unsubscribe f (pre ++ Plain f :: post') = pre ++ post').
  { intros post'. unfold Event.unsubscribe, JsArray.indexOf.
    rewrite indexOf_from_first by exact H. rewrite Z.add_0_l.
    rewrite splice1_at by (rewrite length_app; simpl; lia).
    apply remove_at_middle. }
  split; [apply E|].
  unfold Event.on, bind, modify, ret, JsArray.push. cbn [value world trace].
  rewrite E. apply app_nil_r.
Qed.

Lemma unsubscribe_removes_the_first_subscription_witness :
  Event.unsubscribe 2 ([Plain 1; OnceWrapper 2] ++ Plain 2 :: [Plain 2; Plain 3])
  = [Plain 1; OnceWrapper 2] ++ [Plain 2; Plain 3]
  /\ Event.unsubscribe 2 (world (Event.on (D:=unit) 2 [Plain 1; OnceWrapper 2]))
     = [Plain 1; OnceWrapper 2].
Proof.
  apply (unsubscribe_removes_the_first_subscription 2 [Plain 1; OnceWrapper 2]
           [Plain 2; Plain 3]).
  intros [H|[H|[]]]; discriminate H.
Defined.

(** X3: called for a handler that is not subscribed (for instance a
    second time), the unsubscribe closure of [on(f)] removes the last
    subscriber instead: [indexOf] answers -1 and [splice(-1, 1)] cuts
    the last element off. *)
Theorem stale_unsubscribe_removes_the_last_subscriber (f : fn) (ls : Bus) :
  ~ In (Plain f) ls ->
  Event.unsubscribe f ls = removelast ls.
Proof.
  intros H. unfold Event.unsubscribe, JsArray.indexOf.
  rewrite indexOf_from_absent by exact H. apply splice1_minus_one.
Qed.

Lemma stale_unsubscribe_removes_the_last_subscriber_witness :
  Event.unsubscribe 1 (Event.unsubscribe 1 [Plain 1; Plain 2; Plain 3])
  = removelast (Event.unsubscribe 1 [Plain 1; Plain 2; Plain 3]).
Proof.
  apply (stale_unsubscribe_removes_the_last_subscriber 1
           (Event.unsubscribe 1 [Plain 1; Plain 2; Plain 3])).
  intros [H|[H|[]]]; discriminate H.
Defined.

Section PassFacts.
Context {D : Type}.
Variable code : fn -> handler D.
Variable d : D.

Lemma forEach_step n k ls l :
  nth_error ls k = Some l ->
  Event.forEach_from code (S n) k d ls
  = (Event.call code l d ;; Event.forEach_from code n (S k) d) ls.
Proof. intros H. simpl. now rewrite H. Qed.

Lemma call_passive f ls :
  passive code d f ->
  Event.call code (Plain f) d ls = Result (Returned tt) ls [Invoked f d].
Proof. intros H. simpl. unfold Event.apply_fn. now rewrite (H ls). Qed.

(** A run of passive handlers is visited in order and leaves the pass
    where it would have been without them. *)
Lemma forEach_passive_prefix pre : forall before rest m,
  (forall l, In l pre -> exists f, l = Plain f /\ passive code d f) ->
  Event.forEach_from code (List.length pre + m) (List.length before) d
    (before ++ pre ++ rest)
  = let r := Event.forEach_from code m (List.length before + List.length pre) d
               (before ++ pre ++ rest) in
    Result (value r) (world r) (map (fun l => Invoked (target l) d) pre ++ trace r).
Proof.
  induction pre as [|a pre IH]; intros before rest m Hp; cbv zeta.
  - simpl. rewrite Nat.add_0_r.
    now destruct (Event.forEach_from code m (List.length before) d (before ++ rest)).
  - change (List.length (a :: pre) + m) with (S (List.length pre + m)).
    rewrite (forEach_step _ _ _ a)
      by (rewrite nth_error_app2, Nat.sub_diag by lia; reflexivity).
    destruct (Hp a (or_introl eq_refl)) as [f [-> Hf]].
    unfold bind. rewrite (call_passive f _ Hf). cbn [value world trace].
    assert (Hp' : forall l, In l pre -> exists g, l = Plain g /\ passive code d g)
      by (intros l Hl; apply Hp; now right).
    specialize (IH (before ++ [Plain f]) rest m Hp'). cbv zeta in IH.
    rewrite <- !app_assoc, length_app in IH. simpl in IH.
    replace (List.length before + 1) with (S (List.length before)) in IH by lia.
    replace (S (List.length before) + List.length pre)
      with (List.length before + S (List.length pre)) in IH by lia.
    simpl. rewrite IH. reflexivity.
Qed.

Lemma invocations_visited (ls : Bus) :
  invocations (map (fun l => Invoked (target l) d) ls)
  = map (fun l => (target l, d)) ls.
Proof. induction ls as [|a ls IH]; simpl; [reflexivity|now rewrite <- IH]. Qed.

Lemma invocations_app (t1 t2 : list (obs D)) :
  invocations (t1 ++ t2) = invocations t1 ++ invocations t2.
Proof. apply flat_map_app. Qed.

Lemma emit_passive ls :
  (forall l, In l ls -> exists f, l = Plain f /\ passive code d f) ->
  Event.emit code d ls
  = Result (Returned tt) ls (Emitted d :: map (fun l => Invoked (target l) d) ls).
Proof.
  intros Hp. pose proof (forEach_passive_prefix ls [] [] 0 Hp) as H.
  cbv zeta in H. simpl in H. rewrite Nat.add_0_r, app_nil_r in H.
  unfold Event.emit, bind, tell. cbn [value world trace]. rewrite H.
  now rewrite app_nil_r.
Qed.
End PassFacts.

(** X4: when a handler throws, the pass stops there: the handlers
    subscribed before it have run, those subscribed after it are not
    invoked, and [emit] throws what the handler threw (the handlers
    before it being ones that return and leave the bus alone). *)
Theorem emit_stops_at_a_throwing_handler (D : Type) (code : fn -> handler D) (d : D)
    (pre post : Bus) (f : fn) (e : JsError) (ls' : Bus) :
  (forall l, In l pre -> exists g, l = Plain g /\ passive code d g) ->
  code f d (pre ++ Plain f :: post) = (Thrown e, ls') ->
  let r := Event.emit code d (pre ++ Plain f :: post) in
  value r = Thrown e
  /\ world r = ls'
  /\ invocations (trace r) = map (fun l => (target l, d)) pre ++ [(f, d)].
Proof.
  intros Hp Hf r.
  assert (E : r = Result (Thrown e) ls'
                (Emitted d :: map (fun l => Invoked (target l) d) pre ++ [Invoked f d])).
  { unfold r, Event.emit, bind, tell. cbn [value world trace].
    rewrite length_app. change (List.length (Plain f :: post)) with (S (List.length post)).
    assert (H : Event.forEach_from code (List.length pre + S (List.length post)) 0 d
                  (pre ++ Plain f :: post)
                = let r0 := Event.forEach_from code (S (List.length post))
                              (List.length pre) d (pre ++ Plain f :: post) in
                  Result (value r0) (world r0)
                    (map (fun l => Invoked (target l) d) pre ++ trace r0))
      by exact (forEach_passive_prefix code d pre [] (Plain f :: post)
                  (S (List.length post)) Hp).
    rewrite H. cbv zeta.
    rewrite (forEach_step code d _ _ _ (Plain f))
      by (rewrite nth_error_app2, Nat.sub_diag by lia; reflexivity).
    unfold bind. simpl Event.call. unfold Event.apply_fn. rewrite Hf.
    cbn [value world trace]. reflexivity. }
  rewrite E. cbn [value world trace]. repeat split.
  change (invocations (Emitted d :: map (fun l => Invoked (target l) d) pre ++ [Invoked f d]))
    with (invocations (map (fun l => Invoked (target l) d) pre ++ [Invoked f d])).
  now rewrite invocations_app, invocations_visited.
Qed.

Lemma emit_stops_at_a_throwing_handler_witness :
  let r := Event.emit (BusScenario.one_throws 2) "x" ([Plain 1] ++ Plain 2 :: [Plain 3]) in
  value r = Thrown (Error "handler")
  /\ world r = [Plain 1; Plain 2; Plain 3]
  /\ invocations (trace r) = map (fun l => (target l, "x")) [Plain 1] ++ [(2, "x")].
Proof.
  apply (emit_stops_at_a_throwing_handler string (BusScenario.one_throws 2) "x"
           [Plain 1] [Plain 3] 2 (Error "handler") [Plain 1; Plain 2; Plain 3]).
  - intros l [<-|[]]. exists 1. split; [reflexivity|]. intros ls. reflexivity.
  - reflexivity.
Defined.

(** X5: a one-shot handler that is the last subscriber when it fires
    does fire once only: the pass invokes the earlier handlers and
    then it, the wrapper is gone afterwards, and the next [emit]
    invokes the earlier handlers alone (all of them handlers that
    return and leave the bus alone). *)
Theorem once_in_last_position_fires_once (D : Type) (code : fn -> handler D)
    (d1 d2 : D) (pre : Bus) (f : fn) :
  (forall l, In l pre ->
     exists g, l = Plain g /\ passive code d1 g /\ passive code d2 g) ->
  passive code d1 f ->
  let r1 := Event.emit code d1 (pre ++ [OnceWrapper f]) in
  let r2 := Event.emit code d2 (world r1) in
  value r1 = Returned tt
  /\ world r1 = pre
  /\ invocations (trace r1) = map (fun l => (target l, d1)) pre ++ [(f, d1)]
  /\ value r2 = Returned tt
  /\ invocations (trace r2) = map (fun l => (target l, d2)) pre.
Proof.
  intros Hp Hf r1 r2.
  assert (Hp1 : forall l, In l pre -> exists g, l = Plain g /\ passive code d1 g).
  { intros l Hl. destruct (Hp l Hl) as [g [-> [H1 _]]]. now exists g. }
  assert (Hp2 : forall l, In l pre -> exists g, l = Plain g /\ passive code d2 g).
  { intros l Hl. destruct (Hp l Hl) as [g [-> [_ H2]]]. now exists g. }
  assert (E1 : r1 = Result (Returned tt) pre
                 (Emitted d1 :: map (fun l => Invoked (target l) d1) pre
                    ++ [Invoked f d1])).
  { unfold r1, Event.emit, bind, tell. cbn [value world trace].
    rewrite length_app. change (List.length [OnceWrapper f]) with 1.
    assert (H : Event.forEach_from code (List.length pre + 1) 0 d1
                  (pre ++ [OnceWrapper f])
                = let r0 := Event.forEach_from code 1 (List.length pre) d1
                              (pre ++ [OnceWrapper f]) in
                  Result (value r0) (world r0)
                    (map (fun l => Invoked (target l) d1) pre ++ trace r0))
      by exact (forEach_passive_prefix code d1 pre [] [OnceWrapper f] 1 Hp1).
    rewrite H. cbv zeta.
    rewrite (forEach_step code d1 _ _ _ (OnceWrapper f))
      by (rewrite nth_error_app2, Nat.sub_diag by lia; reflexivity).
    simpl Event.call. unfold bind, Event.apply_fn, modify. rewrite (Hf _).
    cbn [value world trace Event.forEach_from ret].
    unfold Event.off, JsArray.pop. rewrite removelast_last.
    cbn [value world trace app]. reflexivity. }
  assert (E2 : r2 = Result (Returned tt) pre
                 (Emitted d2 :: map (fun l => Invoked (target l) d2) pre)).
  { unfold r2. rewrite E1. cbn [world]. apply emit_passive, Hp2. }
  rewrite E1, E2. cbn [value world trace]. repeat split.
  - change (invocations (Emitted d1 :: map (fun l => Invoked (target l) d1) pre
                           ++ [Invoked f d1]))
      with (invocations (map (fun l => Invoked (target l) d1) pre ++ [Invoked f d1])).
    now rewrite invocations_app, invocations_visited.
  - apply (invocations_visited d2).
Qed.

Lemma once_in_last_position_fires_once_witness :
  let r1 := Event.emit Scenario.quiet "a" ([Plain 1; Plain 2] ++ [OnceWrapper 3]) in
  let r2 := Event.emit Scenario.quiet "b" (world r1) in
  value r1 = Returned tt
  /\ world r1 = [Plain 1; Plain 2]
  /\ invocations (trace r1)
     = map (fun l => (target l, "a")) [Plain 1; Plain 2] ++ [(3, "a")]
  /\ value r2 = Returned tt
  /\ invocations (trace r2) = map (fun l => (target l, "b")) [Plain 1; Plain 2].
Proof.
  apply (once_in_last_position_fires_once string Scenario.quiet "a" "b"
           [Plain 1; Plain 2] 3).
  - intros l [<-|[<-|[]]]; eexists; (split; [reflexivity|]);
      split; intros ls; reflexivity.
  - intros ls. reflexivity.
Defined.

(* ------------------------------------------------------------------ *)
(** ** Further properties: modules *)

Section ConfiguredFacts.
Variable hook : fn -> outcome unit.
Variable code : fn -> handler string.

Lemma configured_hooks regs : forall m ph,
  Lifecycle.h (Mod.lc (configured regs m)) ph
  = Lifecycle.h (Mod.lc m) ph ++ registered_for ph regs.
Proof.
  unfold configured.
  induction regs as [|r regs IH]; intros m ph; simpl.
  - now rewrite app_nil_r.
  - rewrite IH. destruct m as [n c [hi hs ht hd] st b].
    destruct r, ph; simpl; unfold JsArray.push;
      rewrite <- ?app_assoc; reflexivity.
Qed.

Lemma configured_evt regs : forall m,
  Mod.evt (configured regs m) = Mod.evt m ++ subscribed regs.
Proof.
  unfold configured.
  induction regs as [|r regs IH]; intros m; simpl.
  - now rewrite app_nil_r.
  - rewrite IH. destruct m as [n c t st b].
    destruct r; simpl; unfold JsArray.push; rewrite <- ?app_assoc; reflexivity.
Qed.

Lemma configured_state regs : forall m,
  Mod.state (configured regs m) = Mod.state m.
Proof.
  unfold configured.
  induction regs as [|r regs IH]; intros m; simpl; [reflexivity|].
  rewrite IH. destruct r; reflexivity.
Qed.


Lemma hooks_run_app t1 t2 : hooks_run (t1 ++ t2) = hooks_run t1 ++ hooks_run t2.
Proof. apply flat_map_app. Qed.

Lemma hooks_run_hooks (t : list Lifecycle.ran) : hooks_run (map Mod.Hook t) = t.
Proof. induction t as [|r t IH]; simpl; [reflexivity|now rewrite IH]. Qed.

Lemma hooks_run_events (t : list (obs string)) : hooks_run (map Mod.Event t) = [].
Proof. induction t; simpl; auto. Qed.

Lemma forEach_world ph fs t : world (Lifecycle.forEach hook ph fs t) = t.
Proof.
  induction fs as [|f fs IH]; simpl; [reflexivity|].
  unfold bind, settle, tell; cbn [value world trace].
  destruct (hook f) as [[]|e]; cbn [value world trace]; [exact IH|reflexivity].
Qed.

(** A phase method leaves the hook table alone, and the hooks it runs
    depend on the table only. *)
Lemma method_hooks ph st ev method m :
  phase_method hook code ph st ev method ->
  Mod.lc (world (method m)) = Mod.lc m
  /\ Mod.name (world (method m)) = Mod.name m
  /\ Mod.cfg (world (method m)) = Mod.cfg m
  /\ hooks_run (trace (method m))
     = trace (Lifecycle.forEach hook ph (Lifecycle.h (Mod.lc m) ph) (Mod.lc m)).
Proof.
  intros Hm. destruct m as [n c t s b].
  cbn [Mod.name Mod.cfg Mod.lc Mod.state Mod.evt].
  destruct Hm; unfold Mod.init, Mod.start, Mod.stop, Mod.on_lc, Mod.on_state,
    Mod.on_evt, Lifecycle.run, State.write;
    unfold bind, zoom, modify, ret;
    cbn [value world trace Mod.name Mod.cfg Mod.lc Mod.state Mod.evt];
    match goal with
    | |- context [Lifecycle.forEach hook ?p ?fs t] =>
        pose proof (forEach_world p fs t) as Hw;
        destruct (Lifecycle.forEach hook p fs t) as [[[]|e] w tr]
    end;
    cbn [value world trace Mod.name Mod.cfg Mod.lc Mod.state Mod.evt] in *;
    subst w;
    try match goal with
    | |- context [Event.emit code ?x b] => destruct (Event.emit code x b) as [[[]|e'] w' tr']
    end;
    cbn [value world trace Mod.name Mod.cfg Mod.lc Mod.state Mod.evt app map];
    rewrite ?hooks_run_app, ?hooks_run_hooks, ?hooks_run_events, ?app_nil_r;
    auto.
Qed.
End ConfiguredFacts.

(** X6: on a module set up by any sequence of [onInit], [onStart],
    [onStop] and [on] calls, a phase method runs exactly the hooks
    registered for its phase, in the order of their registration, and
    only then (the hooks having returned) writes the status and emits
    the phase event to the subscribers, in the order of theirs. *)
Theorem phase_runs_its_hooks_in_registration_order hook code ph st ev method
    (name : string) (cfg : jsval) (regs : list registration) :
  phase_method hook code ph st ev method ->
  hooks_return hook (registered_for ph regs) ->
  let e := Event.emit code ev (subscribed regs) in
  let r := method (configured regs (Mod.Mol_Module name cfg)) in
  trace r
  = map Mod.Hook (map (Lifecycle.Ran ph) (registered_for ph regs))
    ++ map Mod.Event (trace e)
  /\ value r = value e
  /\ status_of (world r) = Returned (Mod.MkSnapshot st VNull).
Proof.
  intros Hm Hr. cbv zeta.
  pose proof (configured_hooks regs (Mod.Mol_Module name cfg) ph) as Hh.
  pose proof (configured_evt regs (Mod.Mol_Module name cfg)) as He.
  assert (Hn : Lifecycle.h (Mod.lc (Mod.Mol_Module name cfg)) ph = [])
    by (destruct ph; reflexivity).
  rewrite Hn in Hh. simpl in Hh, He.
  rewrite (method_after_hooks hook code ph st ev method _ Hm)
    by (rewrite Hh; exact Hr).
  cbv zeta. cbn [value world trace]. rewrite Hh, He. repeat split.
Qed.

Lemma phase_runs_its_hooks_in_registration_order_witness :
  let regs := [RegStop 4; RegInit 1; RegOn 7; RegStart 3; RegInit 2; RegOn 8] in
  let e := Event.emit Scenario.quiet "init" (subscribed regs) in
  let r := Mod.init CoreScenario.hooks Scenario.quiet
             (configured regs (Mod.Mol_Module "m" VNull)) in
  trace r
  = map Mod.Hook (map (Lifecycle.Ran Lifecycle.Init) (registered_for Lifecycle.Init regs))
    ++ map Mod.Event (trace e)
  /\ value r = value e
  /\ status_of (world r) = Returned (Mod.MkSnapshot "init" VNull).
Proof.
  apply (phase_runs_its_hooks_in_registration_order CoreScenario.hooks Scenario.quiet
           Lifecycle.Init "init" "init" (Mod.init CoreScenario.hooks Scenario.quiet)
           "m" VNull
           [RegStop 4; RegInit 1; RegOn 7; RegStart 3; RegInit 2; RegOn 8]).
  - constructor.
  - intros f [<-|[<-|[]]]; reflexivity.
Defined.

(** X7: a phase method never consumes or changes the hooks, the name
    or the configuration of its module, whatever its hooks and the
    subscribers do; the hooks that a later call of any phase method
    runs are those it would have run without the earlier call. *)
Theorem phase_methods_keep_the_hooks hook code ph st ev method
    hook' code' ph' st' ev' method' (m : Mod.module) :
  phase_method hook code ph st ev method ->
  phase_method hook' code' ph' st' ev' method' ->
  let r := method m in
  Mod.lc (world r) = Mod.lc m
  /\ Mod.name (world r) = Mod.name m
  /\ Mod.cfg (world r) = Mod.cfg m
  /\ hooks_run (trace (method' (world r))) = hooks_run (trace (method' m)).
Proof.
  intros Hm Hm' r.
  destruct (method_hooks hook code ph st ev method m Hm) as [Hl [Hn [Hc _]]].
  destruct (method_hooks hook' code' ph' st' ev' method' m Hm') as [_ [_ [_ Hh]]].
  destruct (method_hooks hook' code' ph' st' ev' method' (world r) Hm')
    as [_ [_ [_ Hh']]].
  fold r in Hl, Hn, Hc. repeat split; auto.
  rewrite Hh', Hh, Hl. reflexivity.
Qed.

Lemma phase_methods_keep_the_hooks_witness :
  let m := CoreScenario.with_hooks "beta" 1 9 in
  let r := Mod.init HubScenario.calm ModScenario.on_stop m in
  Mod.lc (world r) = Mod.lc m
  /\ Mod.name (world r) = Mod.name m
  /\ Mod.cfg (world r) = Mod.cfg m
  /\ hooks_run (trace (Mod.stop CoreScenario.hooks Scenario.quiet (world r)))
     = hooks_run (trace (Mod.stop CoreScenario.hooks Scenario.quiet m)).
Proof.
  apply (phase_methods_keep_the_hooks HubScenario.calm ModScenario.on_stop
           Lifecycle.Init "init" "init" (Mod.init HubScenario.calm ModScenario.on_stop)
           CoreScenario.hooks Scenario.quiet
           Lifecycle.Stop "stop" "stop" (Mod.stop CoreScenario.hooks Scenario.quiet)
           (CoreScenario.with_hooks "beta" 1 9)).
  - constructor.
  - constructor.
Defined.

(* ------------------------------------------------------------------ *)
(** ** Further properties: transforms *)

Section TransformFacts.

Lemma reduce_app fs : forall gs x,
  Transform.reduce (fs ++ gs) x
  = match Transform.reduce fs x with
    | Returned y => Transform.reduce gs y
    | Thrown e => Thrown e
    end.
Proof.
  induction fs as [|f fs IH]; intros gs x; simpl; [reflexivity|].
  destruct (f x) as [y|e]; [apply IH|reflexivity].
Qed.
End TransformFacts.

(** X8: [pipe] applies its functions left to right and [compose]
    right to left: piping [fs] followed by [gs] is piping [fs] and
    then [gs], composing [fs] followed by [gs] is composing [gs] and
    then [fs], each stopping at the first function that throws; and
    [compose] of a list is [pipe] of the reversed list, both ways. *)
Theorem pipe_and_compose_chain (fs gs : list Transform.unary) (x : jsval) :
  Transform.pipe (fs ++ gs) x
  = match Transform.pipe fs x with
    | Returned y => Transform.pipe gs y
    | Thrown e => Thrown e
    end
  /\ Transform.compose (fs ++ gs) x
     = match Transform.compose gs x with
       | Returned y => Transform.compose fs y
       | Thrown e => Thrown e
       end
  /\ Transform.compose (rev fs) x = Transform.pipe fs x.
Proof.
  unfold Transform.compose, Transform.pipe. repeat split.
  - apply reduce_app.
  - rewrite rev_app_distr. apply reduce_app.
  - now rewrite rev_involutive.
Qed.

(* ------------------------------------------------------------------ *)
(** ** Further properties: [Object.entries] and the guard *)

Section OrderFacts.
Context {T : Type}.
Implicit Types (o : object T) (e : string * T).

Lemma insert_index_perm n e (l : list (N * (string * T))) :
  Permutation (map snd (JsObject.insert_index n e l)) (e :: map snd l).
Proof.
  induction l as [|[m e'] l IH]; simpl; [reflexivity|].
  destruct (n <? m)%N; simpl; [reflexivity|].
  rewrite IH. apply perm_swap.
Qed.

Lemma entries_perm o : Permutation (JsObject.entries o) o.
Proof.
  unfold JsObject.entries, JsObject.named.
  induction o as [|e o IH]; simpl; [reflexivity|].
  destruct (JsObject.array_index (fst e)) as [n|]; simpl.
  - rewrite insert_index_perm. simpl. now constructor.
  - rewrite <- Permutation_middle. now constructor.
Qed.

Lemma insert_index_sorted n e (l : list (N * (string * T))) :
  Sorted N.le (map fst l) -> Sorted N.le (map fst (JsObject.insert_index n e l)).
Proof.
  induction l as [|[m e'] l IH]; simpl; intros H.
  - repeat constructor.
  - destruct (N.ltb_spec n m); simpl.
    + constructor; [exact H|]. constructor. simpl. lia.
    + inversion H as [|? ? Hs Hd]; subst. constructor; [now apply IH|].
      destruct l as [|[m' e''] l]; simpl; [constructor; simpl; lia|].
      destruct (N.ltb_spec n m'); simpl; constructor; simpl; [lia|].
      now inversion Hd.
Qed.

Lemma indexed_sorted o : Sorted N.le (map fst (JsObject.indexed o)).
Proof.
  induction o as [|e o IH]; simpl; [constructor|].
  destruct (JsObject.array_index (fst e)); [now apply insert_index_sorted|exact IH].
Qed.

Lemma indexed_keys o :
  map (fun e => JsObject.array_index (fst e)) (map snd (JsObject.indexed o))
  = map Some (map fst (JsObject.indexed o)).
Proof.
  assert (H : forall l : list (N * (string * T)),
            (forall n e, In (n, e) l -> JsObject.array_index (fst e) = Some n) ->
            map (fun e => JsObject.array_index (fst e)) (map snd l)
            = map Some (map fst l)).
  { induction l as [|[n e] l IH]; intros Hl; simpl; [reflexivity|].
    rewrite (Hl n e (or_introl eq_refl)). f_equal. apply IH.
    intros n' e' Hin. apply Hl. now right. }
  apply H. intros n e Hin. now apply In_indexed in Hin.
Qed.

Lemma named_keys o :
  map (fun e => JsObject.array_index (fst e)) (JsObject.named o)
  = map (fun _ => None) (JsObject.named o).
Proof.
  unfold JsObject.named. induction o as [|e o IH]; simpl; [reflexivity|].
  destruct (JsObject.array_index (fst e)) eqn:E; simpl; [exact IH|].
  now rewrite E, IH.
Qed.

Lemma named_of_indexed o : JsObject.named (map snd (JsObject.indexed o)) = [].
Proof.
  pose proof (indexed_keys o) as H. unfold JsObject.named.
  revert H. generalize (map fst (JsObject.indexed o)).
  induction (map snd (JsObject.indexed o)) as [|e l IH]; intros [|n ns] H;
    simpl in *; try discriminate; [reflexivity|].
  inversion H as [[H1 H2]]. rewrite H1. now apply (IH ns).
Qed.

Lemma named_idem o : JsObject.named (JsObject.named o) = JsObject.named o.
Proof.
  unfold JsObject.named. induction o as [|e o IH]; simpl; [reflexivity|].
  destruct (JsObject.array_index (fst e)) eqn:E; simpl; [exact IH|].
  now rewrite E, IH.
Qed.

Lemma indexed_without_index_keys o :
  (forall e, In e o -> JsObject.array_index (fst e) = None) ->
  JsObject.indexed o = [] /\ JsObject.named o = o.
Proof.
  unfold JsObject.named.
  induction o as [|e o IH]; intros H; simpl; [auto|].
  rewrite (H e (or_introl eq_refl)).
  destruct IH as [H1 H2]; [intros e' He'; apply H; now right|].
  now rewrite H1, H2.
Qed.
End OrderFacts.

(** X9: [Object.entries] lists every own property once (it is a
    permutation of them), the array-index keys first, in ascending
    order of their index, then the other keys, which keep their
    creation order. *)
Theorem entries_order (T : Type) (o : object T) :
  Permutation (JsObject.entries o) o
  /\ (exists ns : list N,
        Sorted N.le ns
        /\ map (fun e => JsObject.array_index (fst e)) (JsObject.entries o)
           = map Some ns ++ map (fun _ => None) (JsObject.named o))
  /\ JsObject.named (JsObject.entries o) = JsObject.named o.
Proof.
  split; [apply entries_perm|]. split.
  - exists (map fst (JsObject.indexed o)). split; [apply indexed_sorted|].
    unfold JsObject.entries. now rewrite map_app, indexed_keys, named_keys.
  - unfold JsObject.entries at 1. unfold JsObject.named at 1.
    rewrite filter_app.
    change (JsObject.named (map snd (JsObject.indexed o))
            ++ JsObject.named (JsObject.named o) = JsObject.named o).
    now rewrite named_of_indexed, named_idem.
Qed.

(** X10: an object none of whose keys is an array index is listed by
    [Object.entries] and [Object.keys] in its creation order. *)
Theorem entries_without_index_keys (T : Type) (o : object T) :
  (forall e, In e o -> JsObject.array_index (fst e) = None) ->
  JsObject.entries o = o /\ JsObject.keys o = map fst o.
Proof.
  intros H. destruct (indexed_without_index_keys o H) as [H1 H2].
  unfold JsObject.keys, JsObject.entries. rewrite H1, H2. auto.
Qed.

Lemma entries_without_index_keys_witness :
  let o := [("name", 1); ("01", 2); ("-1", 3); ("4294967295", 4); ("", 5)] in
  JsObject.entries o = o /\ JsObject.keys o = map fst o.
Proof.
  apply (entries_without_index_keys nat
           [("name", 1); ("01", 2); ("-1", 3); ("4294967295", 4); ("", 5)]).
  intros e [<-|[<-|[<-|[<-|[<-|[]]]]]]; reflexivity.
Defined.

Section VerdictFacts.
Variable x : object jsval.

Lemma check_verdict (es : list (string * Guard.rule)) :
  match Guard.check es x with
  | Guard.Ok d => d = x /\ (forall kr, In kr es -> accepts x kr)
  | Guard.Fail k =>
      exists pre (r : Guard.rule) post,
        es = pre ++ (k, r) :: post
        /\ (forall kr, In kr pre -> accepts x kr)
        /\ r (JsObject.get x k) = false
  end.
Proof.
  induction es as [|[k r] es IH]; simpl.
  - split; [reflexivity|]. intros kr [].
  - destruct (r (JsObject.get x k)) eqn:E; simpl.
    + destruct (Guard.check es x) as [d|k'].
      * destruct IH as [-> IH]. split; [reflexivity|].
        intros kr [<-|H]; [exact E|now apply IH].
      * destruct IH as [pre [r' [post [-> [Hpre Hr']]]]].
        exists ((k, r) :: pre), r', post. repeat split; auto.
        intros kr [<-|H]; [exact E|now apply Hpre].
    + exists [], r, es. repeat split; auto. intros kr [].
Qed.

End VerdictFacts.

Lemma validate_ok (rules : object Guard.rule) (data d : object jsval) :
  Guard.validate rules data = Guard.Ok d
  <-> (forall kr, In kr rules -> accepts data kr) /\ d = data.
Proof.
  unfold Guard.validate. split.
  - intros H. pose proof (check_verdict data (JsObject.entries rules)) as V.
    rewrite H in V. destruct V as [-> V]. split; [|reflexivity].
    intros kr Hkr. apply V. apply (proj2 (In_entries rules kr) Hkr).
  - intros [H ->]. apply check_all_accept.
    intros kr Hkr. apply H. apply (proj1 (In_entries rules kr) Hkr).
Qed.

Lemma validate_fail (rules : object Guard.rule) (data : object jsval) (k : string) :
  Guard.validate rules data = Guard.Fail k
  <-> exists pre (r : Guard.rule) post,
        JsObject.entries rules = pre ++ (k, r) :: post
        /\ (forall kr, In kr pre -> accepts data kr)
        /\ r (JsObject.get data k) = false.
Proof.
  unfold Guard.validate. split.
  - intros H. pose proof (check_verdict data (JsObject.entries rules)) as V.
    now rewrite H in V.
  - intros [pre [r [post [-> [Hpre Hr]]]]]. now apply check_first_reject.
Qed.

(** X11: the verdict of [validate(rules)(data)] is [ok] exactly when
    every rule accepts its field of [data], and then it carries [data]
    itself; it is a failure naming [k] exactly when [k]'s rule is the
    first one, in the order of [Object.entries(rules)], to reject. *)
Theorem validate_verdict (rules : object Guard.rule) (data : object jsval) :
  (forall d, Guard.validate rules data = Guard.Ok d
             <-> (forall kr, In kr rules -> accepts data kr) /\ d = data)
  /\ (forall k, Guard.validate rules data = Guard.Fail k
                <-> exists pre (r : Guard.rule) post,
                      JsObject.entries rules = pre ++ (k, r) :: post
                      /\ (forall kr, In kr pre -> accepts data kr)
                      /\ r (JsObject.get data k) = false).
Proof.
  split; [intros d; apply validate_ok|intros k; apply validate_fail].
Qed.

(* ------------------------------------------------------------------ *)
(** ** Further properties: the store *)

Section StoreFacts.
Variable code : fn -> handler Store.payload.

Lemma set_admitted s x :
  admits s x ->
  let e := Event.emit code x (Store.changed s) in
  Store.set code x s
  = Result (match value e with Returned _ => Returned x | Thrown err => Thrown err end)
      (Store.MkStore (MkCell (initial (Store.state s)) x) (world e) (Store.validator s))
      (trace e).
Proof.
  intros Ha. destruct s as [c b vd]. unfold admits in Ha. cbv zeta.
  cbn [Store.state Store.changed Store.validator] in *.
  assert (Hv : (match vd with
                | Some validate =>
                    match validate x with
                    | Guard.Fail field => throw (Error ("Invalid: " ++ field))
                    | Guard.Ok _ => ret tt
                    end
                | None => ret tt
                end) = (ret tt : Eff Store.store (obs Store.payload) unit)).
  { destruct vd as [vf|]; [|reflexivity]. destruct Ha as [d ->]. reflexivity. }
  unfold Store.set. cbn [Store.validator]. rewrite Hv.
  unfold Store.on_state, Store.on_changed, State.write.
  unfold bind, zoom, modify, ret.
  cbn [value world trace Store.state Store.changed Store.validator initial app map].
  destruct (Event.emit code x b) as [[[]|err] w tr];
    cbn [value world trace app]; rewrite ?app_nil_r, ?map_id; reflexivity.
Qed.

Lemma set_refused s x vf k :
  Store.validator s = Some vf -> vf x = Guard.Fail k ->
  Store.set code x s = Result (Thrown (Error ("Invalid: " ++ k))) s [].
Proof.
  intros Hv Hk. unfold Store.set. rewrite Hv, Hk. reflexivity.
Qed.

Lemma set_frame s x :
  Store.validator (world (Store.set code x s)) = Store.validator s
  /\ initial (Store.state (world (Store.set code x s))) = initial (Store.state s).
Proof.
  destruct (Store.validator s) as [vf|] eqn:Hv.
  - destruct (vf x) as [d|k] eqn:Hk.
    + rewrite set_admitted by (unfold admits; rewrite Hv; now exists d).
      cbn [world Store.validator Store.state initial]. auto.
    + rewrite (set_refused s x vf k Hv Hk). cbn [world]. auto.
  - rewrite set_admitted by (unfold admits; now rewrite Hv).
    cbn [world Store.validator Store.state initial]. auto.
Qed.

Lemma store_after_frame ops : forall s,
  Store.validator (store_after code ops s) = Store.validator s
  /\ initial (Store.state (store_after code ops s)) = initial (Store.state s).
Proof.
  unfold store_after.
  induction ops as [|op ops IH]; intros s; simpl; [auto|].
  destruct (IH (store_step code s op)) as [H1 H2]. rewrite H1, H2.
  destruct op; simpl; auto. apply set_frame.
Qed.

End StoreFacts.

(** X12: [set(x)] replaces the value before it notifies: for a
    payload the store admits, the stored value is [x] afterwards
    whatever the subscribers do, and when a subscriber throws, [set]
    throws that exception with the value already replaced. *)
Theorem set_replaces_before_it_notifies (code : fn -> handler Store.payload)
    (s : Store.store) (x : Store.payload) :
  admits s x ->
  let e := Event.emit code x (Store.changed s) in
  let r := Store.set code x s in
  value (Store.get (world r)) = Returned x
  /\ value r = match value e with Returned _ => Returned x | Thrown err => Thrown err end
  /\ Store.changed (world r) = world e
  /\ trace r = trace e.
Proof.
  intros Ha. cbv zeta. rewrite (set_admitted code s x Ha). cbv zeta.
  cbn [value world trace Store.changed]. repeat split.
Qed.

Lemma set_replaces_before_it_notifies_witness :
  let code := BusScenario.one_throws 2 in
  let x := [("name", VStr "ada")] in
  let e := Event.emit code x (Store.changed StoreScenario.watched) in
  let r := Store.set code x StoreScenario.watched in
  value (Store.get (world r)) = Returned x
  /\ value r = match value e with Returned _ => Returned x | Thrown err => Thrown err end
  /\ Store.changed (world r) = world e
  /\ trace r = trace e.
Proof.
  apply (set_replaces_before_it_notifies (BusScenario.one_throws 2)
           StoreScenario.watched [("name", VStr "ada")]).
  exists [("name", VStr "ada")]. reflexivity.
Defined.

(** X13: whatever was set, subscribed, unsubscribed and reset on a
    store before, [reset()] returns the value the store was created
    with and [get()] returns it afterwards; [reset] does not validate
    that value against the schema and notifies no subscriber. *)
Theorem reset_restores_the_initial_value (code : fn -> handler Store.payload)
    (init : Store.payload) (schema : object Guard.rule) (ops : list store_op) :
  let s := store_after code ops (Store.Mol_Store init schema) in
  let r := Store.reset s in
  value r = Returned init
  /\ value (Store.get (world r)) = Returned init
  /\ trace r = []
  /\ Store.changed (world r) = Store.changed s
  /\ Store.validator (world r) = Store.validator s.
Proof.
  intros s r.
  destruct (store_after_frame code ops (Store.Mol_Store init schema)) as [_ Hi].
  fold s in Hi. simpl in Hi.
  unfold r, Store.reset, Store.get, Store.on_state, State.reset, State.read.
  unfold bind, zoom, modify, gets.
  cbn [value world trace Store.state Store.changed Store.validator initial v app map].
  rewrite Hi. repeat split.
Qed.



(* ------------------------------------------------------------------ *)
(** ** Further properties: pipelines of any length *)

Section LongPipelineFacts.
Variable code : fn -> handler Pipeline.progress.





End LongPipelineFacts.





(* ------------------------------------------------------------------ *)
(** ** Further properties: sweeps over a registry of any size *)

Section SweepFacts.
Variables (ph : Lifecycle.phase) (method : Eff Mod.module Mod.seen unit).
Variable line : string -> string.









End SweepFacts.





Section LookupFacts.
Variable hook : fn -> outcome unit.
Variable code : fn -> handler string.



End LookupFacts.



(* ------------------------------------------------------------------ *)
(** ** Further properties: the logger *)

Section LoggerFacts.
Variable code : fn -> handler Logger.entry.

Lemma log_result now level msgs (l : Logger.logger) :
  let e := Logger.MkEntry now level (Logger.join " " msgs) in
  let pushed := Logger.logs l ++ [e] in
  let kept := if Nat.ltb 1000 (List.length pushed) then tl pushed else pushed in
  let em := Event.emit code e (Logger.evt l) in
  Logger.log code now level msgs l
  = Result (value em) (Logger.MkLogger kept (world em))
      (map Logger.Event (trace em)
       ++ match value em with Returned _ => [Logger.Printed e] | Thrown _ => [] end).
Proof.
  cbv zeta. unfold Logger.log, Logger.on_evt, JsArray.push.
  unfold bind, zoom, modify, tell.
  cbn [value world trace Logger.logs Logger.evt app].
  destruct (Nat.ltb 1000 (List.length (Logger.logs l ++ [_])));
    cbn [value world trace Logger.logs Logger.evt app];
    destruct (Event.emit code _ (Logger.evt l)) as [[[]|err] w t];
    cbn [value world trace Logger.logs Logger.evt app];
    rewrite ?app_nil_r; reflexivity.
Qed.

Lemma lastn_short (T : Type) (n : nat) (a : list T) :
  List.length a <= n -> lastn n a = a.
Proof.
  intros H. unfold lastn. replace (List.length a - n) with 0 by lia. reflexivity.
Qed.

Lemma lastn_length (T : Type) (n : nat) (a : list T) :
  List.length (lastn n a) <= n.
Proof. unfold lastn. rewrite length_skipn. lia. Qed.

Lemma lastn_lastn_app (T : Type) (n : nat) (a b : list T) :
  lastn n (lastn n a ++ b) = lastn n (a ++ b).
Proof.
  destruct (Nat.le_gt_cases (List.length a) n) as [H|H].
  - now rewrite (lastn_short T n a H).
  - unfold lastn. rewrite !length_app, length_skipn.
    replace (List.length a - (List.length a - n) + List.length b - n)
      with (List.length b) by lia.
    replace (List.length a + List.length b - n)
      with (List.length b + (List.length a - n)) by lia.
    rewrite <- skipn_skipn. f_equal.
    rewrite skipn_app.
    replace (List.length a - n - List.length a) with 0 by lia. reflexivity.
Qed.

Lemma kept_is_lastn (T : Type) (a : list T) (e : T) :
  List.length a <= 1000 ->
  (if Nat.ltb 1000 (List.length (a ++ [e])) then tl (a ++ [e]) else a ++ [e])
  = lastn 1000 (a ++ [e]).
Proof.
  intros H. unfold lastn. rewrite length_app. cbn [List.length].
  destruct (Nat.ltb_spec 1000 (List.length a + 1)).
  - replace (List.length a + 1 - 1000) with 1 by lia.
    now destruct (a ++ [e]).
  - replace (List.length a + 1 - 1000) with 0 by lia. reflexivity.
Qed.

Lemma logger_after_logs calls : forall l,
  List.length (Logger.logs l) <= 1000 ->
  Logger.logs (logger_after code calls l)
  = lastn 1000 (Logger.logs l ++ map entry_of calls).
Proof.
  unfold logger_after.
  induction calls as [|c calls IH]; intros l H; cbn [fold_left map].
  - rewrite app_nil_r. now rewrite lastn_short.
  - rewrite IH; rewrite log_result; cbv zeta; cbn [world Logger.logs];
      rewrite (kept_is_lastn _ _ _ H).
    + fold (entry_of c). rewrite lastn_lastn_app, <- app_assoc. reflexivity.
    + apply lastn_length.
Qed.
End LoggerFacts.

(** X20: the logger keeps the last 1000 entries: after any run of
    [log] calls, on a log that held at most 1000 entries, the log
    holds the last 1000 of the old entries followed by the new ones,
    in order, whatever the [onLog] subscribers do. *)
Theorem logger_keeps_the_last_1000 (code : fn -> handler Logger.entry)
    (calls : list log_call) (l : Logger.logger) :
  List.length (Logger.logs l) <= 1000 ->
  let l' := logger_after code calls l in
  Logger.logs l' = lastn 1000 (Logger.logs l ++ map entry_of calls)
  /\ List.length (Logger.logs l') <= 1000
  /\ value (Logger.getLogs l')
     = Returned (lastn 1000 (Logger.logs l ++ map entry_of calls)).
Proof.
  intros H l'.
  pose proof (logger_after_logs code calls l H) as E. fold l' in E.
  repeat split; [exact E|rewrite E; apply lastn_length|].
  unfold Logger.getLogs, gets. cbn [value]. now rewrite E.
Qed.

Lemma logger_keeps_the_last_1000_witness :
  let calls := repeat (MkLogCall "2026-01-01T00:00:00.000Z" "INFO" ["up"]) 1001 in
  let l' := logger_after (BusScenario.one_throws 1) calls
              (world (Logger.onLog 1 Logger.Module_Logger)) in
  Logger.logs l' = lastn 1000 ([] ++ map entry_of calls)
  /\ List.length (Logger.logs l') <= 1000
  /\ value (Logger.getLogs l')
     = Returned (lastn 1000 ([] ++ map entry_of calls)).
Proof.
  apply (logger_keeps_the_last_1000 (BusScenario.one_throws 1)
           (repeat (MkLogCall "2026-01-01T00:00:00.000Z" "INFO" ["up"]) 1001)
           (world (Logger.onLog 1 Logger.Module_Logger))).
  apply Nat.le_0_l.
Defined.

(** X21: a [log] call records before it notifies and prints last: the
    new entry is the last one of the log whatever the [onLog]
    subscribers do; when one of them throws, [log] throws that
    exception with the entry recorded and nothing printed; when none
    does, the entry is emitted once and printed once. *)
Theorem log_records_before_it_notifies (code : fn -> handler Logger.entry)
    (now level : string) (msgs : list string) (l : Logger.logger) :
  let e := Logger.MkEntry now level (Logger.join " " msgs) in
  let em := Event.emit code e (Logger.evt l) in
  let r := Logger.log code now level msgs l in
  value r = value em
  /\ last (Logger.logs (world r)) e = e
  /\ In e (Logger.logs (world r))
  /\ printed (trace r)
     = match value em with Returned _ => [e] | Thrown _ => [] end.
Proof.
  cbv zeta. rewrite log_result. cbv zeta. cbn [value world trace Logger.logs].
  set (e := Logger.MkEntry now level (Logger.join " " msgs)).
  assert (Hk : exists a, (if Nat.ltb 1000 (List.length (Logger.logs l ++ [e]))
                          then tl (Logger.logs l ++ [e]) else Logger.logs l ++ [e])
                         = a ++ [e]).
  { destruct (Nat.ltb_spec 1000 (List.length (Logger.logs l ++ [e]))) as [H|H];
      [|now exists (Logger.logs l)].
    rewrite length_app in H. cbn [List.length] in H.
    destruct (Logger.logs l) as [|x a]; [cbn in H; lia|]. now exists a. }
  destruct Hk as [a ->]. split; [reflexivity|].
  split; [apply last_last|]. split; [apply in_or_app; right; now left|].
  unfold printed. rewrite flat_map_app.
  assert (Hev : forall t : list (obs Logger.entry),
            flat_map (fun o => match o with
                               | Logger.Printed e0 => [e0]
                               | Logger.Event _ => []
                               end) (map Logger.Event t) = [])
    by (induction t; simpl; auto).
  rewrite Hev. now destruct (value (Event.emit code e (Logger.evt l))).
Qed.
